(** * Group invitations: issuance and redemption

    A shallow embedding of the [models] package file that defines
    [GroupInvitation], [CreateGroupInvitation], [JoinGroupByInvitation],
    [findGroupInvitationByGroupIDAndEmail] and [generateVerificationCode],
    together with the statements proved about it.

    Go strings are byte strings: they are embedded as [string], one [ascii]
    per byte.  Go's [(T, error)] results are pairs of options, [None]
    standing for [nil]. *)

From Stdlib Require Import ZArith NArith List String Ascii Bool Lia.
From Stdlib Require Init.Byte.
Import ListNotations.

Local Open Scope string_scope.
Local Open Scope Z_scope.

(** ** Errors *)

(** The Go [error] interface, as the tagged union of the values this file can
    produce.  The first five constructors are values of type [session.Error]
    (built by the constructors of the same name in package [session]);
    [PlainError] is any other error: a driver error or an error of the random
    source. *)
Inductive error : Type :=
| TooManyGroupInvitationsError
| ForbiddenError
| InvalidGroupInvitationCodeError
| ServerError (cause : error)
| TransactionError (cause : error)
| PlainError (msg : string).

(** The type assertion [_, ok := err.(session.Error)]. *)
Definition isSessionError (err : error) : bool :=
  match err with
  | PlainError _ => false
  | _ => true
  end.

(** ** Machine integers *)

Definition two64 : Z := 2 ^ 64.

(** Arithmetic on [uint64] wraps modulo 2^64. *)
Definition uint64 (z : Z) : Z := z mod two64.

(** Arithmetic on [int64] wraps into [-2^63, 2^63). *)
Definition int64 (z : Z) : Z := (z + 2 ^ 63) mod two64 - 2 ^ 63.

Definition maxInt64 : Z := 2 ^ 63 - 1.

(** ** The verification code generator *)

(** The buffer [var b [8]byte]. *)
Record Bytes8 : Type := mkBytes8 {
  b0 : Byte.byte; b1 : Byte.byte; b2 : Byte.byte; b3 : Byte.byte;
  b4 : Byte.byte; b5 : Byte.byte; b6 : Byte.byte; b7 : Byte.byte
}.

Definition byteZ (b : Byte.byte) : Z := Z.of_N (Byte.to_N b).

Module LittleEndian.
(** [binary.LittleEndian.Uint64]:
    [uint64(b[0]) | uint64(b[1])<<8 | ... | uint64(b[7])<<56]. *)
Definition Uint64 (b : Bytes8) : Z :=
  Z.lor (byteZ (b0 b))
 (Z.lor (Z.shiftl (byteZ (b1 b)) 8)
 (Z.lor (Z.shiftl (byteZ (b2 b)) 16)
 (Z.lor (Z.shiftl (byteZ (b3 b)) 24)
 (Z.lor (Z.shiftl (byteZ (b4 b)) 32)
 (Z.lor (Z.shiftl (byteZ (b5 b)) 40)
 (Z.lor (Z.shiftl (byteZ (b6 b)) 48)
        (Z.shiftl (byteZ (b7 b)) 56))))))).
End LittleEndian.

(** The outcome of [rand.Read(b[:])] on the 8-byte buffer: the buffer filled,
    or an error. *)
Inductive RandRead : Type :=
| RandFilled (b : Bytes8)
| RandFailed (cause : error).

Definition digitChar (d : Z) : ascii := ascii_of_N (48 + Z.to_N d).

(** [fmt.Sprint] of a [uint64]: its decimal digits, most significant first,
    produced from the least significant one as [strconv.FormatUint] does.
    A [uint64] has at most 20 digits. *)
Fixpoint formatBits (fuel : nat) (u : Z) (acc : string) : string :=
  match fuel with
  | O => acc
  | S fuel' =>
      if u <? 10 then String (digitChar u) acc
      else formatBits fuel' (u / 10) (String (digitChar (u mod 10)) acc)
  end.

Definition Sprint (u : Z) : string := formatBits 20 u "".

(** [generateVerificationCode], given what [rand.Read] did. *)
Definition generateVerificationCode (r : RandRead) : string * option error :=
  match r with
  | RandFailed err => ("", Some (ServerError err))
  | RandFilled b =>
      let c := uint64 (LittleEndian.Uint64 b mod 10000) in
      let c := if c <? 1000 then uint64 (1000 + c) else c in
      (Sprint c, None)
  end.

(** Reading a code back: decimal digits only, as [strconv.ParseUint] in base
    10 accepts them. *)
Definition isDigit (c : ascii) : bool :=
  let n := N_of_ascii c in ((48 <=? n) && (n <=? 57))%N.

Fixpoint isNumeric (s : string) : bool :=
  match s with
  | EmptyString => true
  | String c s' => isDigit c && isNumeric s'
  end.

Fixpoint parseDigits (acc : Z) (s : string) : Z :=
  match s with
  | EmptyString => acc
  | String c s' => parseDigits (10 * acc + (Z.of_N (N_of_ascii c) - 48)) s'
  end.

Definition ParseUint (s : string) : option Z :=
  match s with
  | EmptyString => None
  | _ => if isNumeric s then Some (parseDigits 0 s) else None
  end.

(** ** [strings.TrimSpace] *)

(** [strings.TrimSpace] removes the leading and the trailing white space of a
    string, white space being the code points of [unicode.IsSpace].  A Go
    string holds UTF-8 bytes, in which a white-space code point is one of the
    byte sequences recognised below (an overlong or truncated encoding decodes
    to [utf8.RuneError], which is not white space). *)
Definition asciiSpace (n : N) : bool :=
  ((n =? 9) || (n =? 10) || (n =? 11) || (n =? 12) || (n =? 13) || (n =? 32))%N.

(** Width in bytes of the white-space code point that [bs] starts with, [O]
    when [bs] starts with anything else. *)
Definition spaceWidth (bs : list ascii) : nat :=
  match map N_of_ascii (firstn 3 bs) with
  | c :: r =>
      if asciiSpace c then 1%nat
      else
        match c, r with
        | 0xC2%N, c1 :: _ =>            (* U+0085, U+00A0 *)
            if ((c1 =? 0x85) || (c1 =? 0xA0))%N then 2%nat else O
        | 0xE1%N, [0x9A%N; 0x80%N] => 3%nat    (* U+1680 *)
        | 0xE2%N, [0x80%N; c2] =>
            (* U+2000..U+200A, U+2028, U+2029, U+202F *)
            if (((0x80 <=? c2) && (c2 <=? 0x8A))
                || (c2 =? 0xA8) || (c2 =? 0xA9) || (c2 =? 0xAF))%N
            then 3%nat else O
        | 0xE2%N, [0x81%N; 0x9F%N] => 3%nat    (* U+205F *)
        | 0xE3%N, [0x80%N; 0x80%N] => 3%nat    (* U+3000 *)
        | _, _ => O
        end
  | [] => O
  end.

(** Width of the white-space code point that the string whose bytes are
    [rev rbs] ends with: the last code point is looked for in its last one,
    two and three bytes, as [utf8.DecodeLastRuneInString] does. *)
Definition lastSpaceWidth (rbs : list ascii) : nat :=
  if (spaceWidth (rev (firstn 1 rbs)) =? 1)%nat then 1%nat
  else if (spaceWidth (rev (firstn 2 rbs)) =? 2)%nat then 2%nat
  else if (spaceWidth (rev (firstn 3 rbs)) =? 3)%nat then 3%nat
  else O.

Fixpoint dropWhileSpace (width : list ascii -> nat) (fuel : nat)
    (bs : list ascii) : list ascii :=
  match fuel with
  | O => bs
  | S fuel' =>
      match width bs with
      | O => bs
      | w => dropWhileSpace width fuel' (skipn w bs)
      end
  end.

Definition TrimLeftSpace (bs : list ascii) : list ascii :=
  dropWhileSpace spaceWidth (List.length bs) bs.

Definition TrimRightSpace (bs : list ascii) : list ascii :=
  rev (dropWhileSpace lastSpaceWidth (List.length bs) (rev bs)).

Definition TrimSpace (s : string) : string :=
  string_of_list_ascii (TrimRightSpace (TrimLeftSpace (list_ascii_of_string s))).

(** ** The data model *)

(** [time.Time], as a count of ticks; [zeroTime] is the zero value
    [time.Time{}]. *)
Definition Time : Type := Z.
Definition zeroTime : Time := 0.

Definition MaxGroupInvitations : Z := 7.

(** [GroupInvitation] is a way to invite a user to a group for free; it is
    also a row of the table [group_invitations]. *)
Record GroupInvitation : Type := mkGroupInvitation {
  InvitationID : string;
  inv_GroupID : string;
  inv_Email : string;
  Code : string;
  SentAt : Time;
  CreatedAt : Time
}.

(** [sql.NullString]. *)
Record NullString : Type := mkNullString {
  String_ : string;
  Valid : bool
}.

(** Modelled from the spec: the [User] struct is declared outside the file
    embedded here; the workflows read its [UserID] and its nullable [Email]. *)
Record User : Type := mkUser {
  UserID : string;
  Email : NullString
}.

(** Modelled from the spec: the [Group] struct is declared outside the file
    embedded here.  It has the persisted [groupID], [userID] (the owner) and
    [usersCount], and the in-memory fields the redemption assigns: [Role] and
    [User] (a [*User], [None] for [nil]). *)
Record Group : Type := mkGroup {
  GroupID : string;
  grp_UserID : string;
  UsersCount : Z;
  Role : string;
  grp_User : option User
}.

(** Modelled from the spec: a row of the table [groups], of which this file
    reads [group_id] and [user_id] and writes [users_count]. *)
Record GroupRow : Type := mkGroupRow {
  row_group_id : string;
  row_user_id : string;
  row_users_count : Z
}.

(** Modelled from the spec: a row of the table [participants], a membership
    record linking a user to a group with a role and a source tag. *)
Record Participant : Type := mkParticipant {
  par_GroupID : string;
  par_UserID : string;
  par_Role : string;
  par_Source : string
}.

(** Modelled from the spec: the constants [ParticipantRoleVIP] and
    [ParticipantSourceInvitation] are declared outside the file embedded
    here; the spec gives their values. *)
Definition ParticipantRoleVIP : string := "VIP".
Definition ParticipantSourceInvitation : string := "invitation".

(** The relational store: the four tables the workflows touch, each a list
    of rows in storage order. *)
Record Store : Type := mkStore {
  groups : list GroupRow;
  users : list User;
  participants : list Participant;
  group_invitations : list GroupInvitation
}.

(** ** The world outside the program *)

(** Every statement sent to the store can fail for a reason of the store's
    own (a lost connection, a cancelled context, a constraint not modelled
    here).  A [Faults] value says, for each statement of the two workflows,
    whether it fails so and with which driver message. *)
Record Faults : Type := mkFaults {
  fault_countInvitations : option string;
  fault_findGroup : option string;
  fault_insertInvitation : option string;
  fault_findInvitation : option string;
  fault_findUser : option string;
  fault_countParticipants : option string;
  fault_updateGroup : option string;
  fault_createParticipant : option string;
  fault_deleteInvitation : option string
}.

Definition noFaults : Faults :=
  mkFaults None None None None None None None None None.

(** What one call observes of its environment: the identifier
    [uuid.Must(uuid.NewV4()).String()], the clock [time.Now()], the outcome
    of [rand.Read], and the store's faults. *)
Record World : Type := mkWorld {
  newV4 : string;
  Now : Time;
  randRead : RandRead;
  faults : Faults
}.

(** ** Transactions *)

Inductive result (A : Type) : Type :=
| Ok (a : A)
| Err (e : error).
Arguments Ok {A} a.
Arguments Err {A} e.

(** A computation on a [*sql.Tx]: it reads the world, works on the
    transaction's view of the store and returns a value or an error together
    with that view as its statements left it.  The view is kept on an error
    too: whether the writes survive is decided by whoever runs the
    transaction. *)
Definition Tx (A : Type) : Type := World -> Store -> result A * Store.

Definition ret {A : Type} (a : A) : Tx A := fun _ tx => (Ok a, tx).

Definition throw {A : Type} (e : error) : Tx A := fun _ tx => (Err e, tx).

Definition bind {A B : Type} (m : Tx A) (k : A -> Tx B) : Tx B :=
  fun w tx =>
    match m w tx with
    | (Ok a, tx') => k a w tx'
    | (Err e, tx') => (Err e, tx')
    end.

Notation "x <- m ;; k" := (bind m (fun x => k))
  (at level 61, m at next level, right associativity).

(** [tx.QueryRowContext(...)] followed by a scan. *)
Definition query {A : Type} (fault : Faults -> option string)
    (q : Store -> A) : Tx A :=
  fun w tx =>
    match fault (faults w) with
    | Some msg => (Err (PlainError msg), tx)
    | None => (Ok (q tx), tx)
    end.

(** [tx.ExecContext(...)]: the statement is refused by the store (a fault or
    a violated constraint) or applied. *)
Definition exec (fault : Faults -> option string)
    (stmt : Store -> result Store) : Tx unit :=
  fun w tx =>
    match fault (faults w) with
    | Some msg => (Err (PlainError msg), tx)
    | None =>
        match stmt tx with
        | Ok tx' => (Ok tt, tx')
        | Err e => (Err e, tx)
        end
    end.

(** Modelled from the spec: [RunInTransaction] is a method of the database
    handle, declared outside the file embedded here.  The transaction is
    committed on normal return of [fn] and rolled back on any error. *)
Definition RunInTransaction {A : Type} (fn : Tx A) (w : World) (db : Store)
    : result A * Store :=
  match fn w db with
  | (Ok a, tx) => (Ok a, tx)
  | (Err e, _) => (Err e, db)
  end.

(** ** The statements *)

(** [SELECT count( * ) FROM group_invitations WHERE group_id=$1]. *)
Definition invitationCount (db : Store) (groupID : string) : Z :=
  Z.of_nat (List.length
    (filter (fun i => (inv_GroupID i =? groupID)%string) (group_invitations db))).

Definition countGroupInvitations (groupID : string) : Tx Z :=
  query fault_countInvitations (fun tx => invitationCount tx groupID).

Definition groupFromRow (r : GroupRow) : Group :=
  mkGroup (row_group_id r) (row_user_id r) (row_users_count r) "" None.

Definition lookupGroup (db : Store) (groupID : string) : option Group :=
  option_map groupFromRow
    (find (fun r => (row_group_id r =? groupID)%string) (groups db)).

(** Modelled from the spec: [findGroup] is declared outside the file embedded
    here: [findGroupByID(groupID) -> Group | absent]. *)
Definition findGroup (groupID : string) : Tx (option Group) :=
  query fault_findGroup (fun tx => lookupGroup tx groupID).

Definition lookupUser (db : Store) (userID : string) : option User :=
  find (fun u => (UserID u =? userID)%string) (users db).

(** Modelled from the spec: [findUserByID] is declared outside the file
    embedded here: [findUserByID(userID) -> User | absent]. *)
Definition findUserByID (userID : string) : Tx (option User) :=
  query fault_findUser (fun tx => lookupUser tx userID).

(** [SELECT ... FROM group_invitations WHERE group_id=$1 AND email=$2 LIMIT 1],
    read by [groupInvitationFromRows]: no row is [(nil, nil)]. *)
Definition lookupInvitation (db : Store) (groupID email : string)
    : option GroupInvitation :=
  find (fun i => (inv_GroupID i =? groupID)%string && (inv_Email i =? email)%string)
       (group_invitations db).

Definition findGroupInvitationByGroupIDAndEmail (groupID email : string)
    : Tx (option GroupInvitation) :=
  query fault_findInvitation (fun tx => lookupInvitation tx groupID email).

(** [INSERT INTO group_invitations(...) VALUES (...)] under the constraints
    of [groupInvitationsDDL]: the primary key [invitation_id], the reference
    to [groups], and the unique index on [(group_id, email)]. *)
Definition insertInvitationRow (i : GroupInvitation) (db : Store) : result Store :=
  if existsb (fun j => (InvitationID j =? InvitationID i)%string) (group_invitations db)
  then Err (PlainError "duplicate key value violates unique constraint group_invitations_pkey")
  else if negb (existsb (fun r => (row_group_id r =? inv_GroupID i)%string) (groups db))
  then Err (PlainError "insert on table group_invitations violates foreign key constraint")
  else if existsb (fun j => (inv_GroupID j =? inv_GroupID i)%string
                            && (inv_Email j =? inv_Email i)%string)
                  (group_invitations db)
  then Err (PlainError "duplicate key value violates unique constraint group_invitations_group_emailx")
  else Ok (mkStore (groups db) (users db) (participants db)
                   (group_invitations db ++ [i])).

Definition insertGroupInvitation (i : GroupInvitation) : Tx unit :=
  exec fault_insertInvitation (insertInvitationRow i).

(** [SELECT count( * ) FROM participants WHERE group_id=$1]. *)
Definition participantCount (db : Store) (groupID : string) : Z :=
  Z.of_nat (List.length
    (filter (fun p => (par_GroupID p =? groupID)%string) (participants db))).

Definition countParticipants (groupID : string) : Tx Z :=
  query fault_countParticipants (fun tx => participantCount tx groupID).

(** [UPDATE groups SET users_count=$1 WHERE group_id=$2]. *)
Definition setUsersCountRow (count : Z) (groupID : string) (db : Store) : Store :=
  mkStore
    (map (fun r => if (row_group_id r =? groupID)%string
                   then mkGroupRow (row_group_id r) (row_user_id r) count
                   else r) (groups db))
    (users db) (participants db) (group_invitations db).

Definition updateGroupUsersCount (count : Z) (groupID : string) : Tx unit :=
  exec fault_updateGroup (fun tx => Ok (setUsersCountRow count groupID tx)).

Definition insertParticipantRow (p : Participant) (db : Store) : Store :=
  mkStore (groups db) (users db) (participants db ++ [p]) (group_invitations db).

(** Modelled from the spec: [createParticipant] is declared outside the file
    embedded here: [createParticipant(group, userID, source) -> Participant],
    which persists a participant row with the group's role and the source
    and takes part in the caller's transaction. *)
Definition createParticipant (group : Group) (userID source : string)
    : Tx Participant :=
  let p := mkParticipant (GroupID group) userID (Role group) source in
  _ <- exec fault_createParticipant (fun tx => Ok (insertParticipantRow p tx)) ;;
  ret p.

(** [DELETE FROM group_invitations WHERE invitation_id=$1]. *)
Definition deleteInvitationRow (invitationID : string) (db : Store) : Store :=
  mkStore (groups db) (users db) (participants db)
    (filter (fun i => negb (InvitationID i =? invitationID)%string)
            (group_invitations db)).

Definition deleteGroupInvitation (invitationID : string) : Tx unit :=
  exec fault_deleteInvitation (fun tx => Ok (deleteInvitationRow invitationID tx)).

(** ** The two workflows *)

Definition ask : Tx World := fun w tx => (Ok w, tx).

(** A Go call returning [(T, error)], made inside a transaction. *)
Definition call {A : Type} (r : A * option error) : Tx A :=
  match r with
  | (_, Some err) => throw err
  | (a, None) => ret a
  end.

(** The function literal that [CreateGroupInvitation] runs in a transaction.
    Its value is what it leaves in the captured variable [invitation]. *)
Definition createGroupInvitationTx (user : User) (groupID email : string)
    : Tx (option GroupInvitation) :=
  count <- countGroupInvitations groupID ;;
  if count >? 7 then throw TooManyGroupInvitationsError
  else
    group <- findGroup groupID ;;
    match group with
    | None => ret None
    | Some group =>
        if negb (UserID user =? grp_UserID group)%string then throw ForbiddenError
        else
          w <- ask ;;
          let invitation :=
            mkGroupInvitation (newV4 w) (GroupID group) email "" zeroTime (Now w) in
          code <- call (generateVerificationCode (randRead w)) ;;
          let invitation :=
            mkGroupInvitation (InvitationID invitation) (inv_GroupID invitation)
              (inv_Email invitation) code (SentAt invitation) (CreatedAt invitation) in
          _ <- insertGroupInvitation invitation ;;
          ret (Some invitation)
    end.

(** What both workflows do with the transaction's outcome: a [session.Error]
    is returned as it is, any other error is wrapped in a
    [session.TransactionError]. *)
Definition finish {A : Type} (r : result (option A) * Store)
    : (option A * option error) * Store :=
  match r with
  | (Err err, db) =>
      if isSessionError err then ((None, Some err), db)
      else ((None, Some (TransactionError err)), db)
  | (Ok a, db) => ((a, None), db)
  end.

(** [CreateGroupInvitation] creates a group invitation by email.  The result
    is the pair that the Go method returns and the store after the call. *)
Definition CreateGroupInvitation (w : World) (db : Store) (user : User)
    (groupID email : string) : (option GroupInvitation * option error) * Store :=
  finish (RunInTransaction (createGroupInvitationTx user groupID email) w db).

Definition withUser (g : Group) (owner : option User) : Group :=
  mkGroup (GroupID g) (grp_UserID g) (UsersCount g) (Role g) owner.

Definition withUsersCount (g : Group) (count : Z) : Group :=
  mkGroup (GroupID g) (grp_UserID g) count (Role g) (grp_User g).

Definition withRole (g : Group) (role : string) : Group :=
  mkGroup (GroupID g) (grp_UserID g) (UsersCount g) role (grp_User g).

(** The function literal that [JoinGroupByInvitation] runs in a transaction.
    Its value is what it leaves in the captured variable [group], which
    [findGroup] assigns first and the later steps update in place. *)
Definition joinGroupByInvitationTx (user : User) (groupID code : string)
    : Tx (option Group) :=
  group <- findGroup groupID ;;
  match group with
  | None => ret None
  | Some group =>
      invitation <- findGroupInvitationByGroupIDAndEmail
                      (GroupID group) (String_ (Email user)) ;;
      match invitation with
      | None => ret (Some group)
      | Some invitation =>
          if negb (Code invitation =? TrimSpace code)%string
          then throw InvalidGroupInvitationCodeError
          else
            owner <- findUserByID (grp_UserID group) ;;
            let group := withUser group owner in
            count <- countParticipants groupID ;;
            let group := withUsersCount group (int64 (count + 1)) in
            _ <- updateGroupUsersCount (UsersCount group) (GroupID group) ;;
            let group := withRole group ParticipantRoleVIP in
            _ <- createParticipant group (UserID user) ParticipantSourceInvitation ;;
            _ <- deleteGroupInvitation (InvitationID invitation) ;;
            ret (Some group)
      end
  end.

(** [JoinGroupByInvitation] joins the group by invitation code. *)
Definition JoinGroupByInvitation (w : World) (db : Store) (user : User)
    (groupID code : string) : (option Group * option error) * Store :=
  finish (RunInTransaction (joinGroupByInvitationTx user groupID code) w db).

(** ** Concrete stores and calls used as test inputs *)

Module Sample.

Definition owner : User := mkUser "u1" (mkNullString "owner@example.com" true).
Definition guest : User := mkUser "u2" (mkNullString "a@example.com" true).

Definition invitation (n email code : string) : GroupInvitation :=
  mkGroupInvitation n "g" email code zeroTime 1.

Definition empty : Store :=
  mkStore [mkGroupRow "g" "u1" 0] [owner; guest] [] [].

Definition sevenRows : list GroupInvitation :=
  [invitation "i1" "b1@example.com" "1111";
   invitation "i2" "b2@example.com" "2222";
   invitation "i3" "b3@example.com" "3333";
   invitation "i4" "b4@example.com" "4444";
   invitation "i5" "b5@example.com" "5555";
   invitation "i6" "b6@example.com" "6666";
   invitation "i7" "b7@example.com" "7777"].

Definition seven : Store :=
  mkStore [mkGroupRow "g" "u1" 0] [owner; guest] [] sevenRows.

Definition eight : Store :=
  mkStore [mkGroupRow "g" "u1" 0] [owner; guest] []
    (sevenRows ++ [invitation "i8" "b8@example.com" "8888"]).

(** The invitation for [guest] is outstanding. *)
Definition invited : Store :=
  mkStore [mkGroupRow "g" "u1" 0] [owner; guest] []
    [invitation "i0" "a@example.com" "4821"].

(** The denormalised count disagrees with the participant rows. *)
Definition skewed : Store :=
  mkStore [mkGroupRow "g" "u1" 5] [owner; guest] []
    [invitation "i0" "a@example.com" "4821"].

Definition bytes : Bytes8 :=
  mkBytes8 Byte.x39 Byte.x30 Byte.x00 Byte.x00 Byte.x00 Byte.x00 Byte.x00 Byte.x00.

Definition world : World := mkWorld "i9" 2 (RandFilled bytes) noFaults.

Definition participantFault : Faults :=
  mkFaults None None None None None None None (Some "connection reset") None.

Definition faulty : World := mkWorld "i9" 2 (RandFilled bytes) participantFault.

End Sample.

(** ** Notions used in the statements *)

(** The three parts of what a workflow call yields. *)
Definition returned {A : Type} (r : (option A * option error) * Store) : option A :=
  fst (fst r).

Definition failure {A : Type} (r : (option A * option error) * Store) : option error :=
  snd (fst r).

Definition storeAfter {A : Type} (r : (option A * option error) * Store) : Store :=
  snd r.

(** The code as the specification words it: the eight bytes read as an
    unsigned little-endian integer, reduced modulo 10000, and lifted by 1000
    when below 1000. *)
Definition specLittleEndian (b : Bytes8) : Z :=
  byteZ (b0 b) + 2 ^ 8 * byteZ (b1 b) + 2 ^ 16 * byteZ (b2 b)
  + 2 ^ 24 * byteZ (b3 b) + 2 ^ 32 * byteZ (b4 b) + 2 ^ 40 * byteZ (b5 b)
  + 2 ^ 48 * byteZ (b6 b) + 2 ^ 56 * byteZ (b7 b).

Definition specCode (b : Bytes8) : Z :=
  let m := specLittleEndian b mod 10000 in
  if m <? 1000 then m + 1000 else m.

(** A printed code is well formed: four characters, all decimal digits, that
    read back as [c]. *)
Definition fourDigits (c : Z) (s : string) : bool :=
  (String.length s =? 4)%nat && isNumeric s
  && match ParseUint s with Some v => v =? c | None => false end.

Definition codeValues : list Z :=
  map (fun i => 1000 + Z.of_nat i) (seq 0 (Z.to_nat 9000)).

(** The [users_count] stored for a group. *)
Definition storedUsersCount (db : Store) (groupID : string) : option Z :=
  option_map row_users_count
    (find (fun r => (row_group_id r =? groupID)%string) (groups db)).

(** A successful redemption: the user's invitation to the group was
    outstanding and the call returned a group and no error, leaving the
    store [db']. *)
Definition redemption (groupID : string) (w : World) (db : Store) (user : User)
    (code : string) (group : Group) (db' : Store) : Prop :=
  lookupInvitation db groupID (String_ (Email user)) <> None /\
  JoinGroupByInvitation w db user groupID code = ((Some group, None), db').

(** [n] successful redemptions for one group, one after the other, by any
    users in any worlds. *)
Inductive redemptions (groupID : string) : nat -> Store -> Store -> Prop :=
| redemptions_none : forall db, redemptions groupID O db db
| redemptions_more : forall n w db user code group db' db'',
    redemption groupID w db user code group db' ->
    redemptions groupID n db' db'' ->
    redemptions groupID (S n) db db''.

(** The group as a full redemption leaves it in memory: the owner attached,
    the count set to the participant count read plus one, the role set. *)
Definition redeemedGroup (db : Store) (groupID : string) (loaded : Group) : Group :=
  withRole
    (withUsersCount
       (withUser loaded (lookupUser db (grp_UserID loaded)))
       (int64 (participantCount db groupID + 1)))
    ParticipantRoleVIP.

(** The three writes of a full redemption, in the order they are made. *)
Definition countWritten (db : Store) (groupID : string) (loaded : Group) : Store :=
  let g := redeemedGroup db groupID loaded in
  setUsersCountRow (UsersCount g) (GroupID g) db.

Definition participantWritten (db : Store) (groupID : string) (user : User)
    (loaded : Group) : Store :=
  let g := redeemedGroup db groupID loaded in
  insertParticipantRow
    (mkParticipant (GroupID g) (UserID user) (Role g) ParticipantSourceInvitation)
    (countWritten db groupID loaded).

Definition redeemedStore (db : Store) (groupID : string) (user : User)
    (loaded : Group) (invitation : GroupInvitation) : Store :=
  deleteInvitationRow (InvitationID invitation)
    (participantWritten db groupID user loaded).

(** ** Sequences of calls *)

(** One call of either workflow, with the world it runs in. *)
Inductive Call : Type :=
| Issue (w : World) (user : User) (groupID email : string)
| Redeem (w : World) (user : User) (groupID code : string).

Definition runCall (db : Store) (c : Call) : Store :=
  match c with
  | Issue w user groupID email =>
      storeAfter (CreateGroupInvitation w db user groupID email)
  | Redeem w user groupID code =>
      storeAfter (JoinGroupByInvitation w db user groupID code)
  end.

Definition runCalls (db : Store) (cs : list Call) : Store :=
  fold_left runCall cs db.

(** The keys of [groupInvitationsDDL]: the primary key and the unique index. *)
Definition invitationKey (i : GroupInvitation) : string * string :=
  (inv_GroupID i, inv_Email i).

Definition keysUnique (db : Store) : Prop :=
  NoDup (map InvitationID (group_invitations db))
  /\ NoDup (map invitationKey (group_invitations db)).

(** The reference of [group_invitations.group_id] to [groups]. *)
Definition invitationsReferGroups (db : Store) : Prop :=
  forall i, In i (group_invitations db) ->
            existsb (fun r => (row_group_id r =? inv_GroupID i)%string) (groups db) = true.

(** The denormalised count of every group is its number of participant rows. *)
Definition countsConsistent (db : Store) : Prop :=
  forall g k, storedUsersCount db g = Some k -> participantCount db g = k.

(** The errors a workflow can hand to its caller. *)
Definition issuanceError (w : World) (e : error) : Prop :=
  e = TooManyGroupInvitationsError
  \/ e = ForbiddenError
  \/ (exists cause, randRead w = RandFailed cause /\ e = ServerError cause)
  \/ (exists msg, e = TransactionError (PlainError msg)).

Definition redemptionError (e : error) : Prop :=
  e = InvalidGroupInvitationCodeError
  \/ (exists msg, e = TransactionError (PlainError msg)).

(** ** Padding of a code *)

(** A string made of the six ASCII white-space bytes only. *)
Definition asciiSpaces (s : string) : bool :=
  forallb (fun a => asciiSpace (N_of_ascii a)) (list_ascii_of_string s).

(** ** Buffers for given codes *)

(** The buffer that carries a given code value to the generator: its two low
    bytes hold the value, little-endian. *)
Definition byteOf (z : Z) : Byte.byte :=
  match Byte.of_N (Z.to_N z) with
  | Some b => b
  | None => Byte.x00
  end.

Definition bytesOfCode (c : Z) : Bytes8 :=
  mkBytes8 (byteOf (c mod 256)) (byteOf (c / 256)) Byte.x00 Byte.x00
    Byte.x00 Byte.x00 Byte.x00 Byte.x00.

(** ** Reading an invitation from a row *)

(** A column value as the driver hands it to [Scan]: text for the VARCHAR
    columns, a time for the TIMESTAMP columns, or NULL. *)
Inductive Value : Type :=
| VText (s : string)
| VTimestamp (t : Time)
| VNull.

Definition groupInvitationColumns : list string :=
  ["invitation_id"; "group_id"; "email"; "code"; "sent_at"; "created_at"].

(** [(i *GroupInvitation) values()]: the parameters of the INSERT, which
    names [groupInvitationColumns] in the same order. *)
Definition values (i : GroupInvitation) : list Value :=
  [VText (InvitationID i); VText (inv_GroupID i); VText (inv_Email i);
   VText (Code i); VTimestamp (SentAt i); VTimestamp (CreatedAt i)].

(** A [durable.Row]: what [Scan] will find.  No row ([sql.ErrNoRows]), a
    query that failed (its error is reported by [Scan]), or the columns of
    the first row, in the order the SELECT names them. *)
Inductive Row : Type :=
| RowMissing
| RowFailed (msg : string)
| RowOf (columns : list Value).

(** A destination of [Scan]: a pointer to a string field or to a time field
    of the invitation being filled. *)
Inductive Dest : Type :=
| DestString (assign : string -> GroupInvitation -> GroupInvitation)
| DestTime (assign : Time -> GroupInvitation -> GroupInvitation).

Inductive ScanError : Type :=
| ErrNoRows
| ErrQuery (msg : string)
| ErrArity (columns dests : nat)
| ErrConvert (index : nat) (v : Value).

Section Scanning.

(** [time.Time.Format(time.RFC3339Nano)], which [Scan] applies when a time
    is scanned into a string; the layout of a time is not modelled. *)
Variable formatTime : Time -> string.

(** The conversions of [database/sql] between the values and the
    destinations above: text into a string and a time into a time are
    stored, a time into a string is stored formatted, and NULL or text into
    a time, and NULL into a string, are refused. *)
Definition convertAssign (d : Dest) (v : Value) (i : GroupInvitation)
    : option GroupInvitation :=
  match d, v with
  | DestString assign, VText s => Some (assign s i)
  | DestString assign, VTimestamp t => Some (assign (formatTime t) i)
  | DestTime assign, VTimestamp t => Some (assign t i)
  | _, _ => None
  end.

(** The loop of [Rows.Scan]: the columns are stored one by one and the first
    refusal stops it, leaving the earlier destinations assigned. *)
Fixpoint assignColumns (index : nat) (dests : list Dest) (vs : list Value)
    (i : GroupInvitation) : GroupInvitation * option ScanError :=
  match dests, vs with
  | d :: dests', v :: vs' =>
      match convertAssign d v i with
      | Some i' => assignColumns (S index) dests' vs' i'
      | None => (i, Some (ErrConvert index v))
      end
  | _, _ => (i, None)
  end.

Definition Scan (row : Row) (dests : list Dest) (i : GroupInvitation)
    : GroupInvitation * option ScanError :=
  match row with
  | RowMissing => (i, Some ErrNoRows)
  | RowFailed msg => (i, Some (ErrQuery msg))
  | RowOf vs =>
      if (List.length dests =? List.length vs)%nat
      then assignColumns O dests vs i
      else (i, Some (ErrArity (List.length vs) (List.length dests)))
  end.

Definition zeroGroupInvitation : GroupInvitation :=
  mkGroupInvitation "" "" "" "" zeroTime zeroTime.

Definition invitationDests : list Dest :=
  [DestString (fun s i => mkGroupInvitation s (inv_GroupID i) (inv_Email i)
                            (Code i) (SentAt i) (CreatedAt i));
   DestString (fun s i => mkGroupInvitation (InvitationID i) s (inv_Email i)
                            (Code i) (SentAt i) (CreatedAt i));
   DestString (fun s i => mkGroupInvitation (InvitationID i) (inv_GroupID i) s
                            (Code i) (SentAt i) (CreatedAt i));
   DestString (fun s i => mkGroupInvitation (InvitationID i) (inv_GroupID i)
                            (inv_Email i) s (SentAt i) (CreatedAt i));
   DestTime (fun t i => mkGroupInvitation (InvitationID i) (inv_GroupID i)
                          (inv_Email i) (Code i) t (CreatedAt i));
   DestTime (fun t i => mkGroupInvitation (InvitationID i) (inv_GroupID i)
                          (inv_Email i) (Code i) (SentAt i) t)].

(** [groupInvitationFromRows]: the pointer returned ([None] for [nil]) and
    the error of [Scan] ([None] for [nil]). *)
Definition groupInvitationFromRows (row : Row)
    : option GroupInvitation * option ScanError :=
  let (i, err) := Scan row invitationDests zeroGroupInvitation in
  match err with
  | Some ErrNoRows => (None, None)
  | _ => (Some i, err)
  end.

End Scanning.

(** ** Category views *)

Module views.

(** Modelled from the spec: [model.Category] is declared outside the files
    embedded here and the spec leaves it out of its scope; these are the
    fields that [buildCategory] reads, with the types of the view's fields
    they are copied to. *)
Record Category : Type := mkCategory {
  cat_CategoryID : string;
  cat_Name : string;
  cat_Alias : string;
  cat_Description : string;
  cat_TopicsCount : Z;
  cat_LastTopicID : NullString;
  cat_Position : Z;
  cat_CreatedAt : Time;
  cat_UpdatedAt : Time
}.

(** [CategoryView] is the response body of a category. *)
Record CategoryView : Type := mkCategoryView {
  Type_ : string;
  CategoryID : string;
  Name : string;
  Alias : string;
  Description : string;
  TopicsCount : Z;
  LastTopicID : string;
  Position : Z;
  CreatedAt : Time;
  UpdatedAt : Time
}.

(** The zero value of [CategoryView]. *)
Definition zeroCategoryView : CategoryView :=
  mkCategoryView "" "" "" "" "" 0 "" 0 zeroTime zeroTime.

(** [buildCategory]; the argument is a [*model.Category], [None] for [nil]. *)
Definition buildCategory (category : option Category) : CategoryView :=
  match category with
  | Some c =>
      mkCategoryView "category" (cat_CategoryID c) (cat_Name c) (cat_Alias c)
        (cat_Description c) (cat_TopicsCount c) (String_ (cat_LastTopicID c))
        (cat_Position c) (cat_CreatedAt c) (cat_UpdatedAt c)
  | None => zeroCategoryView
  end.

(** What a handler gives to [RenderResponse], which is declared outside the
    files embedded here. *)
Inductive Payload : Type :=
| OneView (v : CategoryView)
| ManyViews (vs : list CategoryView).

(** [RenderCategory] responds with a category. *)
Definition RenderCategory (category : option Category) : Payload :=
  OneView (buildCategory category).

(** [views[i] = v]: an index out of range panics ([None]). *)
Fixpoint setIndex (vs : list CategoryView) (i : nat) (v : CategoryView)
    : option (list CategoryView) :=
  match vs, i with
  | [], _ => None
  | _ :: vs', O => Some (v :: vs')
  | x :: vs', S i' => option_map (cons x) (setIndex vs' i' v)
  end.

(** The loop [for i, c := range categories { views[i] = buildCategory(c) }]
    from index [i] on. *)
Fixpoint fillViews (vs : list CategoryView) (i : nat)
    (categories : list (option Category)) : option (list CategoryView) :=
  match categories with
  | [] => Some vs
  | c :: rest =>
      match setIndex vs i (buildCategory c) with
      | Some vs' => fillViews vs' (S i) rest
      | None => None
      end
  end.

(** [RenderCategories] responds with several categories: the slice made by
    [make([]CategoryView, len(categories))], filled by the loop. *)
Definition RenderCategories (categories : list (option Category)) : option Payload :=
  option_map ManyViews
    (fillViews (repeat zeroCategoryView (List.length categories)) O categories).

End views.

(** ** The request-logging middleware *)

Module middleware.

(** The body of a request, as [ioutil.ReadAll] finds it: all its bytes, or an
    error on the way. *)
Inductive Body : Type :=
| Readable (data : string)
| Unreadable (msg : string).

(** An [*http.Request]: the parts that [State] reads or replaces.
    [RequestBody] is the value that [session.WithRequestBody] puts in the
    request's context. *)
Record Request : Type := mkRequest {
  Method : string;
  URL : string;
  body : Body;
  RequestBody : option string
}.

(** An argument of a log line; the duration is the one whose seconds are
    printed. *)
Inductive Arg : Type :=
| ArgString (s : string)
| ArgSeconds (elapsed : Z).

(** What the middleware does to the outside, in order; [Served r] marks the
    call [handler.ServeHTTP(w, r)], followed by the handler's own events. *)
Inductive Event : Type :=
| Infof (format : string) (args : list Arg)
| RenderBadRequest
| CloseBody
| Served (r : Request).

Definition ReadAll (b : Body) : string * option string :=
  match b with
  | Readable data => (data, None)
  | Unreadable msg => ("", Some msg)
  end.

(** [State], applied to a handler: the events of serving [r], the clock
    reading [start] on entry and [finish] when the deferred function runs.
    The handler is given by the events it produces for a request. *)
Definition State (handler : Request -> list Event) (start finish : Time)
    (r : Request) : list Event :=
  let completed :=
    Infof "INFO -- : Completed %s in %fms"
      [ArgString (Method r); ArgSeconds (finish - start)] in
  Infof "INFO -- : Started %s '%s'" [ArgString (Method r); ArgString (URL r)]
  :: match ReadAll (body r) with
     | (_, Some _) => [RenderBadRequest; completed]
     | (data, None) =>
         (if (0 <? String.length data)%nat
          then [Infof "INFO -- : Paremeters %s" [ArgString data]]
          else [])
         ++ CloseBody
         :: Served (mkRequest (Method r) (URL r) (Readable data) (Some data))
         :: handler (mkRequest (Method r) (URL r) (Readable data) (Some data))
         ++ [completed]
     end.

(** The request that [State] hands to the handler once the body [data] is
    read: the body replaced by a buffer of the same bytes, and the bytes put
    in the context. *)
Definition handedOver (r : Request) (data : string) : Request :=
  mkRequest (Method r) (URL r) (Readable data) (Some data).

End middleware.

(** * Properties *)

(** ** The verification code *)

Section VerificationCode.

Lemma byteZ_range (b : Byte.byte) : 0 <= byteZ b < 2 ^ 8.
Proof.
  unfold byteZ. pose proof (Byte.to_N_bounded b) as H.
  change (2 ^ 8) with 256. lia.
Qed.

(** Or-ing a value onto bits that are all clear adds it. *)
Lemma lor_above (a m n : Z) :
  0 <= n -> 0 <= a < 2 ^ n -> Z.lor a (m * 2 ^ n) = a + m * 2 ^ n.
Proof.
  intros Hn Ha.
  rewrite <- (Z.add_lor_land a (m * 2 ^ n)).
  assert (E : Z.land a (m * 2 ^ n) = 0); [ | rewrite E; lia ].
  apply Z.bits_inj'. intros i Hi.
  rewrite Z.land_spec, Z.bits_0.
  destruct (Z.lt_ge_cases i n) as [Hlt | Hge].
  - rewrite Z.mul_pow2_bits_low by lia. apply andb_false_r.
  - destruct (Z.eq_dec a 0) as [-> | Hnz].
    + rewrite Z.bits_0. reflexivity.
    + rewrite (Z.bits_above_log2 a i); [ reflexivity | lia | ].
      apply Z.lt_le_trans with n; [ | exact Hge ].
      apply Z.log2_lt_pow2; lia.
Qed.

Lemma Uint64_is_little_endian (b : Bytes8) :
  LittleEndian.Uint64 b = specLittleEndian b.
Proof.
  unfold LittleEndian.Uint64, specLittleEndian.
  pose proof (byteZ_range (b0 b)); pose proof (byteZ_range (b1 b)).
  pose proof (byteZ_range (b2 b)); pose proof (byteZ_range (b3 b)).
  pose proof (byteZ_range (b4 b)); pose proof (byteZ_range (b5 b)).
  pose proof (byteZ_range (b6 b)); pose proof (byteZ_range (b7 b)).
  rewrite !Z.shiftl_mul_pow2 by lia.
  set (x0 := byteZ (b0 b)) in *; set (x1 := byteZ (b1 b)) in *.
  set (x2 := byteZ (b2 b)) in *; set (x3 := byteZ (b3 b)) in *.
  set (x4 := byteZ (b4 b)) in *; set (x5 := byteZ (b5 b)) in *.
  set (x6 := byteZ (b6 b)) in *; set (x7 := byteZ (b7 b)) in *.
  change (2 ^ 8) with 256 in *.
  rewrite (lor_above (x6 * 2 ^ 48) x7 56) by lia.
  replace (x6 * 2 ^ 48 + x7 * 2 ^ 56) with ((x6 + x7 * 2 ^ 8) * 2 ^ 48) by ring.
  rewrite (lor_above (x5 * 2 ^ 40) _ 48) by lia.
  replace (x5 * 2 ^ 40 + (x6 + x7 * 2 ^ 8) * 2 ^ 48)
    with ((x5 + x6 * 2 ^ 8 + x7 * 2 ^ 16) * 2 ^ 40) by ring.
  rewrite (lor_above (x4 * 2 ^ 32) _ 40) by lia.
  replace (x4 * 2 ^ 32 + (x5 + x6 * 2 ^ 8 + x7 * 2 ^ 16) * 2 ^ 40)
    with ((x4 + x5 * 2 ^ 8 + x6 * 2 ^ 16 + x7 * 2 ^ 24) * 2 ^ 32) by ring.
  rewrite (lor_above (x3 * 2 ^ 24) _ 32) by lia.
  replace (x3 * 2 ^ 24 + (x4 + x5 * 2 ^ 8 + x6 * 2 ^ 16 + x7 * 2 ^ 24) * 2 ^ 32)
    with ((x3 + x4 * 2 ^ 8 + x5 * 2 ^ 16 + x6 * 2 ^ 24 + x7 * 2 ^ 32) * 2 ^ 24) by ring.
  rewrite (lor_above (x2 * 2 ^ 16) _ 24) by lia.
  replace (x2 * 2 ^ 16
           + (x3 + x4 * 2 ^ 8 + x5 * 2 ^ 16 + x6 * 2 ^ 24 + x7 * 2 ^ 32) * 2 ^ 24)
    with ((x2 + x3 * 2 ^ 8 + x4 * 2 ^ 16 + x5 * 2 ^ 24 + x6 * 2 ^ 32 + x7 * 2 ^ 40)
          * 2 ^ 16) by ring.
  rewrite (lor_above (x1 * 2 ^ 8) _ 16) by lia.
  replace (x1 * 2 ^ 8
           + (x2 + x3 * 2 ^ 8 + x4 * 2 ^ 16 + x5 * 2 ^ 24 + x6 * 2 ^ 32 + x7 * 2 ^ 40)
             * 2 ^ 16)
    with ((x1 + x2 * 2 ^ 8 + x3 * 2 ^ 16 + x4 * 2 ^ 24 + x5 * 2 ^ 32 + x6 * 2 ^ 40
           + x7 * 2 ^ 48) * 2 ^ 8) by ring.
  rewrite (lor_above x0 _ 8) by lia.
  ring.
Qed.

Lemma codeValues_fourDigits :
  forallb (fun c => fourDigits c (Sprint c)) codeValues = true.
Proof. vm_compute. reflexivity. Qed.

Lemma Sprint_fourDigits (c : Z) :
  1000 <= c <= 9999 -> fourDigits c (Sprint c) = true.
Proof.
  intros Hc.
  pose proof codeValues_fourDigits as Hall.
  rewrite forallb_forall in Hall. apply Hall.
  unfold codeValues. apply in_map_iff.
  exists (Z.to_nat (c - 1000)). split; [ lia | ].
  apply in_seq. lia.
Qed.

Lemma specCode_range (b : Bytes8) : 1000 <= specCode b <= 9999.
Proof.
  unfold specCode.
  pose proof (Z.mod_pos_bound (specLittleEndian b) 10000 ltac:(lia)) as Hm.
  destruct (Z.ltb_spec (specLittleEndian b mod 10000) 1000); lia.
Qed.

(** The unsigned arithmetic of the generator never wraps. *)
Lemma generated_value (b : Bytes8) :
  (if uint64 (LittleEndian.Uint64 b mod 10000) <? 1000
   then uint64 (1000 + uint64 (LittleEndian.Uint64 b mod 10000))
   else uint64 (LittleEndian.Uint64 b mod 10000)) = specCode b.
Proof.
  unfold specCode, uint64, two64.
  rewrite Uint64_is_little_endian.
  generalize (specLittleEndian b). intros u.
  pose proof (Z.mod_pos_bound u 10000 ltac:(lia)) as Hm.
  rewrite (Z.mod_small (u mod 10000)) by lia.
  destruct (Z.ltb_spec (u mod 10000) 1000);
    [ rewrite Z.mod_small by lia; lia | reflexivity ].
Qed.

Lemma generateVerificationCode_filled (b : Bytes8) :
  generateVerificationCode (RandFilled b) = (Sprint (specCode b), None).
Proof.
  unfold generateVerificationCode. cbv zeta.
  rewrite generated_value. reflexivity.
Qed.

Lemma fourDigits_elim (c : Z) (s : string) :
  fourDigits c s = true ->
  isNumeric s = true /\ String.length s = 4%nat /\ ParseUint s = Some c.
Proof.
  unfold fourDigits. intros H.
  apply andb_true_iff in H. destruct H as [H Hparse].
  apply andb_true_iff in H. destruct H as [Hlen Hnum].
  split; [ exact Hnum | split ].
  - apply Nat.eqb_eq. exact Hlen.
  - destruct (ParseUint s) as [v | ]; [ | discriminate ].
    apply Z.eqb_eq in Hparse. congruence.
Qed.

(** C5: every output of the verification-code generator is a numeric string
    whose value lies in the inclusive range 1000..9999, computed from 8 random
    bytes read as an unsigned 64-bit little-endian integer, reduced modulo
    10000 and lifted by 1000 when below 1000; when the random source errors,
    the generator fails with a ServerError carrying the underlying cause. *)
Theorem generateVerificationCode_spec (r : RandRead) :
  match r with
  | RandFilled b =>
      generateVerificationCode r = (Sprint (specCode b), None)
      /\ 1000 <= specCode b <= 9999
      /\ isNumeric (Sprint (specCode b)) = true
      /\ String.length (Sprint (specCode b)) = 4%nat
      /\ ParseUint (Sprint (specCode b)) = Some (specCode b)
  | RandFailed cause =>
      generateVerificationCode r = ("", Some (ServerError cause))
  end.
Proof.
  destruct r as [b | cause]; [ | reflexivity ].
  split; [ apply generateVerificationCode_filled | ].
  split; [ apply specCode_range | ].
  apply fourDigits_elim, Sprint_fourDigits, specCode_range.
Qed.

End VerificationCode.

(** ** Issuance *)

Section Issuance.

Variables (w : World) (db : Store) (user : User) (groupID email : string).

(** The first statement of the transaction and the capacity test on it. *)
Lemma create_over_capacity :
  fault_countInvitations (faults w) = None ->
  invitationCount db groupID > 7 ->
  createGroupInvitationTx user groupID email w db
  = (Err TooManyGroupInvitationsError, db).
Proof.
  intros Hf Hc.
  unfold createGroupInvitationTx, bind, countGroupInvitations, query.
  rewrite Hf.
  destruct (Z.gtb_spec (invitationCount db groupID) 7) as [_ | Hle];
    [ reflexivity | lia ].
Qed.

Lemma create_under_capacity :
  fault_countInvitations (faults w) = None ->
  invitationCount db groupID <= 7 ->
  fault_findGroup (faults w) = None ->
  createGroupInvitationTx user groupID email w db
  = match lookupGroup db groupID with
    | None => (Ok None, db)
    | Some group =>
        if negb (UserID user =? grp_UserID group)%string
        then (Err ForbiddenError, db)
        else
          (code <- call (generateVerificationCode (randRead w)) ;;
           let invitation :=
             mkGroupInvitation (newV4 w) (GroupID group) email code zeroTime (Now w) in
           _ <- insertGroupInvitation invitation ;;
           ret (Some invitation)) w db
    end.
Proof.
  intros Hf Hc Hg.
  unfold createGroupInvitationTx, bind at 1, countGroupInvitations, query at 1.
  rewrite Hf.
  destruct (Z.gtb_spec (invitationCount db groupID) 7) as [Hgt | _]; [ lia | ].
  unfold bind at 1, findGroup, query at 1. rewrite Hg.
  destruct (lookupGroup db groupID) as [group | ]; [ | reflexivity ].
  destruct (negb (UserID user =? grp_UserID group)%string); reflexivity.
Qed.

(** C10: the capacity check is evaluated before the group-existence and the
    ownership checks: whenever the invitation count read for the group is
    above the threshold of the test (count > 7), the call returns
    TooManyInvitations, whether or not the group exists and whoever the
    acting user is, and the store is left as it was. *)
Theorem capacity_check_comes_first :
  fault_countInvitations (faults w) = None ->
  invitationCount db groupID > 7 ->
  CreateGroupInvitation w db user groupID email
  = ((None, Some TooManyGroupInvitationsError), db).
Proof.
  intros Hf Hc.
  unfold CreateGroupInvitation, RunInTransaction.
  rewrite (create_over_capacity Hf Hc). reflexivity.
Qed.

(** C7: when the group exists and the capacity check passes but the acting
    user is not the owner of the group, the call fails with Forbidden and no
    invitation row is inserted. *)
Theorem non_owner_is_forbidden (group : Group) :
  fault_countInvitations (faults w) = None ->
  invitationCount db groupID <= 7 ->
  fault_findGroup (faults w) = None ->
  lookupGroup db groupID = Some group ->
  UserID user <> grp_UserID group ->
  CreateGroupInvitation w db user groupID email = ((None, Some ForbiddenError), db)
  /\ group_invitations (storeAfter (CreateGroupInvitation w db user groupID email))
     = group_invitations db.
Proof.
  intros Hf Hc Hg Hlook Hneq.
  assert (E : CreateGroupInvitation w db user groupID email
              = ((None, Some ForbiddenError), db)).
  { unfold CreateGroupInvitation, RunInTransaction.
    rewrite (create_under_capacity Hf Hc Hg), Hlook.
    apply String.eqb_neq in Hneq. rewrite Hneq. reflexivity. }
  split; [ exact E | rewrite E; reflexivity ].
Qed.

Lemma create_missing_group :
  fault_countInvitations (faults w) = None ->
  invitationCount db groupID <= 7 ->
  fault_findGroup (faults w) = None ->
  lookupGroup db groupID = None ->
  CreateGroupInvitation w db user groupID email = ((None, None), db).
Proof.
  intros Hf Hc Hg Hlook.
  unfold CreateGroupInvitation, RunInTransaction.
  rewrite (create_under_capacity Hf Hc Hg), Hlook. reflexivity.
Qed.

End Issuance.

(** ** Redemption *)

Section Redemption.

Variables (w : World) (db : Store) (user : User) (groupID code : string).

Lemma lookupGroup_GroupID (group : Group) :
  lookupGroup db groupID = Some group -> GroupID group = groupID.
Proof.
  unfold lookupGroup. intros H.
  destruct (find _ (groups db)) as [r | ] eqn:E; [ | discriminate ].
  apply find_some in E. destruct E as [_ E].
  apply String.eqb_eq in E. injection H as <-. exact E.
Qed.

(** The transaction up to the lookup of the invitation. *)
Lemma join_until_invitation :
  fault_findGroup (faults w) = None ->
  joinGroupByInvitationTx user groupID code w db
  = match lookupGroup db groupID with
    | None => (Ok None, db)
    | Some group =>
        match fault_findInvitation (faults w) with
        | Some msg => (Err (PlainError msg), db)
        | None =>
            match lookupInvitation db groupID (String_ (Email user)) with
            | None => (Ok (Some group), db)
            | Some invitation =>
                if negb (Code invitation =? TrimSpace code)%string
                then (Err InvalidGroupInvitationCodeError, db)
                else
                  (owner <- findUserByID (grp_UserID group) ;;
                   count <- countParticipants groupID ;;
                   let group' :=
                     withUsersCount (withUser group owner) (int64 (count + 1)) in
                   _ <- updateGroupUsersCount (UsersCount group') (GroupID group') ;;
                   _ <- createParticipant (withRole group' ParticipantRoleVIP)
                          (UserID user) ParticipantSourceInvitation ;;
                   _ <- deleteGroupInvitation (InvitationID invitation) ;;
                   ret (Some (withRole group' ParticipantRoleVIP))) w db
            end
        end
    end.
Proof.
  intros Hg.
  unfold joinGroupByInvitationTx, bind at 1, findGroup, query at 1.
  rewrite Hg.
  destruct (lookupGroup db groupID) as [group | ] eqn:Hlook; [ | reflexivity ].
  rewrite (lookupGroup_GroupID _ Hlook).
  unfold bind at 1, findGroupInvitationByGroupIDAndEmail, query at 1.
  destruct (fault_findInvitation (faults w)); [ reflexivity | ].
  destruct (lookupInvitation db groupID (String_ (Email user))) as [invitation | ];
    [ | reflexivity ].
  destruct (negb (Code invitation =? TrimSpace code)%string); reflexivity.
Qed.

(** The writes of the transaction, statement by statement: where it stops on
    a fault, the transaction's own view holds the writes made so far. *)
Lemma join_writes (group : Group) (invitation : GroupInvitation) :
  lookupGroup db groupID = Some group ->
  (owner <- findUserByID (grp_UserID group) ;;
   count <- countParticipants groupID ;;
   let group' := withUsersCount (withUser group owner) (int64 (count + 1)) in
   _ <- updateGroupUsersCount (UsersCount group') (GroupID group') ;;
   _ <- createParticipant (withRole group' ParticipantRoleVIP)
          (UserID user) ParticipantSourceInvitation ;;
   _ <- deleteGroupInvitation (InvitationID invitation) ;;
   ret (Some (withRole group' ParticipantRoleVIP))) w db
  = match fault_findUser (faults w) with
    | Some msg => (Err (PlainError msg), db)
    | None =>
    match fault_countParticipants (faults w) with
    | Some msg => (Err (PlainError msg), db)
    | None =>
    match fault_updateGroup (faults w) with
    | Some msg => (Err (PlainError msg), db)
    | None =>
    match fault_createParticipant (faults w) with
    | Some msg => (Err (PlainError msg), countWritten db groupID group)
    | None =>
    match fault_deleteInvitation (faults w) with
    | Some msg => (Err (PlainError msg), participantWritten db groupID user group)
    | None => (Ok (Some (redeemedGroup db groupID group)),
               redeemedStore db groupID user group invitation)
    end end end end end.
Proof.
  intros Hlook.
  unfold bind, findUserByID, countParticipants, updateGroupUsersCount,
    createParticipant, deleteGroupInvitation, query, exec, bind, ret.
  destruct (fault_findUser (faults w)); [ reflexivity | ].
  destruct (fault_countParticipants (faults w)); [ reflexivity | ].
  destruct (fault_updateGroup (faults w)); [ reflexivity | ].
  destruct (fault_createParticipant (faults w)); [ reflexivity | ].
  destruct (fault_deleteInvitation (faults w)); reflexivity.
Qed.

Lemma join_missing_group :
  fault_findGroup (faults w) = None ->
  lookupGroup db groupID = None ->
  JoinGroupByInvitation w db user groupID code = ((None, None), db).
Proof.
  intros Hg Hlook.
  unfold JoinGroupByInvitation, RunInTransaction.
  rewrite (join_until_invitation Hg), Hlook. reflexivity.
Qed.

Lemma join_no_invitation (group : Group) :
  fault_findGroup (faults w) = None ->
  lookupGroup db groupID = Some group ->
  fault_findInvitation (faults w) = None ->
  lookupInvitation db groupID (String_ (Email user)) = None ->
  JoinGroupByInvitation w db user groupID code = ((Some group, None), db).
Proof.
  intros Hg Hlook Hi Hnone.
  unfold JoinGroupByInvitation, RunInTransaction.
  rewrite (join_until_invitation Hg), Hlook, Hi, Hnone. reflexivity.
Qed.


(** The call once the invitation is found and its code matches. *)
Lemma join_matching_code (group : Group) (invitation : GroupInvitation) :
  fault_findGroup (faults w) = None ->
  lookupGroup db groupID = Some group ->
  fault_findInvitation (faults w) = None ->
  lookupInvitation db groupID (String_ (Email user)) = Some invitation ->
  Code invitation = TrimSpace code ->
  JoinGroupByInvitation w db user groupID code
  = match fault_findUser (faults w), fault_countParticipants (faults w),
          fault_updateGroup (faults w), fault_createParticipant (faults w),
          fault_deleteInvitation (faults w) with
    | None, None, None, None, None =>
        ((Some (redeemedGroup db groupID group), None),
         redeemedStore db groupID user group invitation)
    | Some msg, _, _, _, _
    | None, Some msg, _, _, _
    | None, None, Some msg, _, _
    | None, None, None, Some msg, _
    | None, None, None, None, Some msg =>
        ((None, Some (TransactionError (PlainError msg))), db)
    end.
Proof.
  intros Hg Hlook Hi Hfound Hcode.
  unfold JoinGroupByInvitation, RunInTransaction.
  rewrite (join_until_invitation Hg), Hlook, Hi, Hfound.
  apply String.eqb_eq in Hcode. rewrite Hcode. change (negb true) with false. cbv iota.
  rewrite (join_writes _ invitation Hlook).
  destruct (fault_findUser (faults w)); [ reflexivity | ].
  destruct (fault_countParticipants (faults w)); [ reflexivity | ].
  destruct (fault_updateGroup (faults w)); [ reflexivity | ].
  destruct (fault_createParticipant (faults w)); [ reflexivity | ].
  destruct (fault_deleteInvitation (faults w)); reflexivity.
Qed.

Lemma join_mismatching_code (group : Group) (invitation : GroupInvitation) :
  fault_findGroup (faults w) = None ->
  lookupGroup db groupID = Some group ->
  fault_findInvitation (faults w) = None ->
  lookupInvitation db groupID (String_ (Email user)) = Some invitation ->
  Code invitation <> TrimSpace code ->
  JoinGroupByInvitation w db user groupID code
  = ((None, Some InvalidGroupInvitationCodeError), db).
Proof.
  intros Hg Hlook Hi Hfound Hcode.
  unfold JoinGroupByInvitation, RunInTransaction.
  rewrite (join_until_invitation Hg), Hlook, Hi, Hfound.
  apply String.eqb_neq in Hcode. rewrite Hcode. reflexivity.
Qed.

(** C6: when a matching invitation exists, the supplied code is trimmed of
    surrounding white space and compared with the stored code, and the call
    fails with InvalidInvitationCode if and only if the two differ. *)
Theorem invalid_code_iff_mismatch (group : Group) (invitation : GroupInvitation) :
  fault_findGroup (faults w) = None ->
  lookupGroup db groupID = Some group ->
  fault_findInvitation (faults w) = None ->
  lookupInvitation db groupID (String_ (Email user)) = Some invitation ->
  failure (JoinGroupByInvitation w db user groupID code)
    = Some InvalidGroupInvitationCodeError
  <-> TrimSpace code <> Code invitation.
Proof.
  intros Hg Hlook Hi Hfound.
  destruct (string_dec (Code invitation) (TrimSpace code)) as [Heq | Hneq].
  - split; [ | intros H; congruence ].
    rewrite (join_matching_code _ _ Hg Hlook Hi Hfound Heq).
    destruct (fault_findUser (faults w)); [ discriminate | ].
    destruct (fault_countParticipants (faults w)); [ discriminate | ].
    destruct (fault_updateGroup (faults w)); [ discriminate | ].
    destruct (fault_createParticipant (faults w)); [ discriminate | ].
    destruct (fault_deleteInvitation (faults w)); discriminate.
  - split; [ intros _; congruence | intros _ ].
    rewrite (join_mismatching_code _ _ Hg Hlook Hi Hfound Hneq). reflexivity.
Qed.

(** A failure comes back with the store as it was before the call. *)
Lemma finish_rolled_back {A : Type} (fn : Tx (option A)) (err : error) :
  failure (finish (RunInTransaction fn w db)) = Some err ->
  storeAfter (finish (RunInTransaction fn w db)) = db.
Proof.
  unfold RunInTransaction, finish, failure, storeAfter.
  destruct (fn w db) as [[a | e] tx]; cbn; [ discriminate | ].
  destruct (isSessionError e); reflexivity.
Qed.

(** A fault at the creation of the participant: the transaction had already
    written the count, and none of it is in the store after the call. *)
Lemma participant_fault_rolls_back (group : Group) (invitation : GroupInvitation)
    (msg : string) :
  fault_findGroup (faults w) = None ->
  lookupGroup db groupID = Some group ->
  fault_findInvitation (faults w) = None ->
  lookupInvitation db groupID (String_ (Email user)) = Some invitation ->
  Code invitation = TrimSpace code ->
  fault_findUser (faults w) = None ->
  fault_countParticipants (faults w) = None ->
  fault_updateGroup (faults w) = None ->
  fault_createParticipant (faults w) = Some msg ->
  joinGroupByInvitationTx user groupID code w db
  = (Err (PlainError msg), countWritten db groupID group)
  /\ JoinGroupByInvitation w db user groupID code
     = ((None, Some (TransactionError (PlainError msg))), db).
Proof.
  intros Hg Hlook Hi Hfound Hcode Hu Hc Hup Hp.
  split.
  - rewrite (join_until_invitation Hg), Hlook, Hi, Hfound.
    apply String.eqb_eq in Hcode. rewrite Hcode. change (negb true) with false. cbv iota.
    rewrite (join_writes _ invitation Hlook), Hu, Hc, Hup, Hp. reflexivity.
  - rewrite (join_matching_code _ _ Hg Hlook Hi Hfound Hcode), Hu, Hc, Hup, Hp.
    reflexivity.
Qed.

(** C3: the redemption is atomic.  All its writes are made on the
    transaction; a call that fails leaves the store as it was, and a call
    leaves the store either as it was or with the three writes together: the
    count update, the participant row and the deletion of the invitation. *)
Theorem JoinGroupByInvitation_atomic :
  (forall err, failure (JoinGroupByInvitation w db user groupID code) = Some err ->
               storeAfter (JoinGroupByInvitation w db user groupID code) = db)
  /\ (storeAfter (JoinGroupByInvitation w db user groupID code) = db
      \/ exists loaded invitation,
           lookupGroup db groupID = Some loaded
           /\ lookupInvitation db groupID (String_ (Email user)) = Some invitation
           /\ JoinGroupByInvitation w db user groupID code
              = ((Some (redeemedGroup db groupID loaded), None),
                 redeemedStore db groupID user loaded invitation)).
Proof.
  split.
  - intros err. apply finish_rolled_back.
  - destruct (fault_findGroup (faults w)) as [msg | ] eqn:Hg.
    { left. unfold JoinGroupByInvitation, RunInTransaction,
        joinGroupByInvitationTx, bind, findGroup, query.
      rewrite Hg. reflexivity. }
    destruct (lookupGroup db groupID) as [loaded | ] eqn:Hlook;
      [ | left; rewrite (join_missing_group Hg Hlook); reflexivity ].
    destruct (fault_findInvitation (faults w)) as [msg | ] eqn:Hi.
    { left. unfold JoinGroupByInvitation, RunInTransaction.
      rewrite (join_until_invitation Hg), Hlook, Hi. reflexivity. }
    destruct (lookupInvitation db groupID (String_ (Email user)))
      as [invitation | ] eqn:Hfound;
      [ | left; rewrite (join_no_invitation _ Hg Hlook Hi Hfound);
          reflexivity ].
    destruct (string_dec (Code invitation) (TrimSpace code)) as [Heq | Hneq];
      [ | left; rewrite (join_mismatching_code _ _ Hg Hlook Hi Hfound Hneq);
          reflexivity ].
    pose proof (join_matching_code _ _ Hg Hlook Hi Hfound Heq) as E.
    destruct (fault_findUser (faults w)); [ left; rewrite E; reflexivity | ].
    destruct (fault_countParticipants (faults w)); [ left; rewrite E; reflexivity | ].
    destruct (fault_updateGroup (faults w)); [ left; rewrite E; reflexivity | ].
    destruct (fault_createParticipant (faults w)); [ left; rewrite E; reflexivity | ].
    destruct (fault_deleteInvitation (faults w)); [ left; rewrite E; reflexivity | ].
    right. exists loaded, invitation. auto.
Qed.

End Redemption.

(** ** What a redemption writes *)

Section Membership.

Variable groupID : string.

(** A call that returned a group while the invitation was outstanding went
    through every step of the transaction. *)
Lemma redemption_inv (w : World) (db : Store) (user : User) (code : string)
    (group : Group) (db' : Store) :
  redemption groupID w db user code group db' ->
  exists loaded invitation,
    lookupGroup db groupID = Some loaded
    /\ lookupInvitation db groupID (String_ (Email user)) = Some invitation
    /\ Code invitation = TrimSpace code
    /\ group = redeemedGroup db groupID loaded
    /\ db' = redeemedStore db groupID user loaded invitation.
Proof.
  intros [Hout Hjoin].
  destruct (fault_findGroup (faults w)) as [msg | ] eqn:Hg.
  { unfold JoinGroupByInvitation, RunInTransaction, joinGroupByInvitationTx,
      bind, findGroup, query in Hjoin.
    rewrite Hg in Hjoin. discriminate. }
  destruct (lookupGroup db groupID) as [loaded | ] eqn:Hlook;
    [ | rewrite (join_missing_group w db user groupID code Hg Hlook) in Hjoin; discriminate ].
  destruct (lookupInvitation db groupID (String_ (Email user)))
    as [invitation | ] eqn:Hfound; [ clear Hout | congruence ].
  destruct (fault_findInvitation (faults w)) as [msg | ] eqn:Hi.
  { unfold JoinGroupByInvitation, RunInTransaction in Hjoin.
    rewrite (join_until_invitation w db user groupID code Hg), Hlook, Hi in Hjoin. discriminate. }
  destruct (string_dec (Code invitation) (TrimSpace code)) as [Heq | Hneq];
    [ | rewrite (join_mismatching_code w db user groupID code _ _ Hg Hlook Hi Hfound Hneq) in Hjoin;
        discriminate ].
  rewrite (join_matching_code w db user groupID code _ _ Hg Hlook Hi Hfound Heq) in Hjoin.
  destruct (fault_findUser (faults w)); [ discriminate | ].
  destruct (fault_countParticipants (faults w)); [ discriminate | ].
  destruct (fault_updateGroup (faults w)); [ discriminate | ].
  destruct (fault_createParticipant (faults w)); [ discriminate | ].
  destruct (fault_deleteInvitation (faults w)); [ discriminate | ].
  exists loaded, invitation. injection Hjoin as <- <-. auto.
Qed.

Lemma participants_redeemedStore (db : Store) (user : User) (loaded : Group)
    (invitation : GroupInvitation) :
  lookupGroup db groupID = Some loaded ->
  participants (redeemedStore db groupID user loaded invitation)
  = (participants db
     ++ [mkParticipant groupID (UserID user) ParticipantRoleVIP
           ParticipantSourceInvitation])%list.
Proof.
  intros Hlook. cbn. rewrite (lookupGroup_GroupID db groupID _ Hlook). reflexivity.
Qed.

(** C9: every participant row created by a successful redemption has the
    role VIP and the source invitation (it is the one row the call adds), and
    the group returned carries that role and, as its user, the owner of the
    group as loaded from the store. *)
Theorem redemption_creates_vip_participant (w : World) (db : Store) (user : User)
    (code : string) (group : Group) (db' : Store) :
  redemption groupID w db user code group db' ->
  participants db'
  = (participants db
     ++ [mkParticipant groupID (UserID user) "VIP" "invitation"])%list
  /\ Role group = "VIP"
  /\ option_map grp_UserID (lookupGroup db groupID) = Some (grp_UserID group)
  /\ grp_User group = lookupUser db (grp_UserID group).
Proof.
  intros H. apply redemption_inv in H.
  destruct H as (loaded & invitation & Hlook & _ & _ & -> & ->).
  split; [ apply (participants_redeemedStore db user loaded invitation Hlook) | ].
  rewrite Hlook. repeat split.
Qed.

Lemma int64_small (z : Z) : - 2 ^ 63 <= z <= maxInt64 -> int64 z = z.
Proof.
  unfold int64, maxInt64, two64. intros H.
  rewrite Z.mod_small by lia. lia.
Qed.

Lemma participantCount_nonneg (db : Store) : 0 <= participantCount db groupID.
Proof. unfold participantCount. lia. Qed.

Lemma participantCount_redeemedStore (db : Store) (user : User) (loaded : Group)
    (invitation : GroupInvitation) :
  lookupGroup db groupID = Some loaded ->
  participantCount (redeemedStore db groupID user loaded invitation) groupID
  = participantCount db groupID + 1.
Proof.
  intros Hlook. unfold participantCount.
  rewrite (participants_redeemedStore db user loaded invitation Hlook).
  rewrite filter_app, length_app. cbn.
  rewrite String.eqb_refl. cbn. lia.
Qed.

(** The update of [users_count] is what a later read of the row finds. *)
Lemma find_setUsersCount (count : Z) (rows : list GroupRow) :
  find (fun r => (row_group_id r =? groupID)%string)
    (map (fun r => if (row_group_id r =? groupID)%string
                   then mkGroupRow (row_group_id r) (row_user_id r) count
                   else r) rows)
  = option_map (fun r => mkGroupRow (row_group_id r) (row_user_id r) count)
      (find (fun r => (row_group_id r =? groupID)%string) rows).
Proof.
  induction rows as [ | r rows IH]; [ reflexivity | ].
  cbn. destruct (row_group_id r =? groupID)%string eqn:E; cbn; rewrite E.
  - reflexivity.
  - exact IH.
Qed.

Lemma storedUsersCount_redeemedStore (db : Store) (user : User) (loaded : Group)
    (invitation : GroupInvitation) :
  lookupGroup db groupID = Some loaded ->
  storedUsersCount (redeemedStore db groupID user loaded invitation) groupID
  = Some (int64 (participantCount db groupID + 1)).
Proof.
  intros Hlook. unfold storedUsersCount. cbn.
  rewrite (lookupGroup_GroupID db groupID _ Hlook), find_setUsersCount.
  unfold lookupGroup in Hlook.
  destruct (find _ (groups db)); [ reflexivity | discriminate ].
Qed.

(** One redemption: the count written is the count of participant rows at
    commit. *)
Lemma redemption_counts (w : World) (db : Store) (user : User) (code : string)
    (group : Group) (db' : Store) :
  redemption groupID w db user code group db' ->
  participantCount db groupID < maxInt64 ->
  participantCount db' groupID = participantCount db groupID + 1
  /\ storedUsersCount db' groupID = Some (participantCount db' groupID)
  /\ UsersCount group = participantCount db' groupID.
Proof.
  intros H Hmax. apply redemption_inv in H.
  destruct H as (loaded & invitation & Hlook & _ & _ & -> & ->).
  pose proof (participantCount_nonneg db) as H0.
  rewrite (participantCount_redeemedStore db user loaded invitation Hlook).
  rewrite (storedUsersCount_redeemedStore db user loaded invitation Hlook).
  cbn. rewrite int64_small by (unfold maxInt64 in *; lia). auto.
Qed.

Lemma redemptions_count (n : nat) (db db' : Store) :
  redemptions groupID n db db' ->
  forall k,
    storedUsersCount db groupID = Some k ->
    participantCount db groupID = k ->
    k + Z.of_nat n <= maxInt64 ->
    storedUsersCount db' groupID = Some (k + Z.of_nat n)
    /\ participantCount db' groupID = k + Z.of_nat n.
Proof.
  induction 1 as [db | n w db user code group db' db'' Hstep Hrest IH];
    intros k Hstored Hcount Hmax.
  - rewrite Z.add_0_r. auto.
  - destruct (redemption_counts _ _ _ _ _ _ Hstep) as (Hc & Hs & _); [ lia | ].
    rewrite Hc, Hcount in Hs.
    rewrite Hcount in Hc.
    destruct (IH (k + 1) Hs Hc) as [Hs' Hc']; [ lia | ].
    split; [ rewrite Hs'; f_equal | rewrite Hc' ]; lia.
Qed.

(** C4: on every successful redemption the group's usersCount is set to the
    participant count read in the transaction plus one and exactly one
    participant row is created, so at commit usersCount equals the count of
    participant rows of the group; after n successful redemptions from a
    store where usersCount = k is that count, the stored count is k + n. *)
Theorem usersCount_counts_participants :
  (forall w db user code group db',
      redemption groupID w db user code group db' ->
      participantCount db groupID < maxInt64 ->
      participantCount db' groupID = participantCount db groupID + 1
      /\ storedUsersCount db' groupID = Some (participantCount db' groupID)
      /\ UsersCount group = participantCount db' groupID)
  /\ (forall n k db db',
         redemptions groupID n db db' ->
         storedUsersCount db groupID = Some k ->
         participantCount db groupID = k ->
         k + Z.of_nat n <= maxInt64 ->
         storedUsersCount db' groupID = Some (k + Z.of_nat n)
         /\ participantCount db' groupID = k + Z.of_nat n).
Proof.
  split.
  - intros w db user code group db'. apply redemption_counts.
  - intros n k db db' H. apply (redemptions_count _ _ _ H).
Qed.

End Membership.

(** ** The capacity of a group and the silent paths *)

Section Capacity.

Variables (w : World) (db : Store) (user : User) (groupID email : string).

(** Every call leaves the invitations as they were or adds one row for the
    group, and adds it only after reading a count of at most 7. *)
Lemma create_outcome :
  storeAfter (CreateGroupInvitation w db user groupID email) = db
  \/ (invitationCount db groupID <= 7
      /\ exists invitation,
           inv_GroupID invitation = groupID
           /\ storeAfter (CreateGroupInvitation w db user groupID email)
              = mkStore (groups db) (users db) (participants db)
                  (group_invitations db ++ [invitation])).
Proof.
  destruct (fault_countInvitations (faults w)) as [msg | ] eqn:Hf.
  { left. unfold CreateGroupInvitation, RunInTransaction,
      createGroupInvitationTx, bind, countGroupInvitations, query.
    rewrite Hf. reflexivity. }
  destruct (Z_gt_le_dec (invitationCount db groupID) 7) as [Hgt | Hle].
  { left. unfold CreateGroupInvitation, RunInTransaction.
    rewrite (create_over_capacity w db user groupID email Hf Hgt). reflexivity. }
  destruct (fault_findGroup (faults w)) as [msg | ] eqn:Hg.
  { left. unfold CreateGroupInvitation, RunInTransaction,
      createGroupInvitationTx, bind, countGroupInvitations, findGroup, query.
    rewrite Hf.
    destruct (invitationCount db groupID >? 7); [ reflexivity | ].
    rewrite Hg. reflexivity. }
  unfold CreateGroupInvitation, RunInTransaction.
  rewrite (create_under_capacity w db user groupID email Hf Hle Hg).
  destruct (lookupGroup db groupID) as [group | ] eqn:Hlook; [ | left; reflexivity ].
  destruct (negb (UserID user =? grp_UserID group)%string); [ left; reflexivity | ].
  unfold bind, call, insertGroupInvitation, exec, throw, ret.
  destruct (generateVerificationCode (randRead w)) as [c [err | ]].
  { left. destruct (isSessionError err) eqn:E; cbn; rewrite E; reflexivity. }
  destruct (fault_insertInvitation (faults w)); [ left; reflexivity | ].
  unfold insertInvitationRow.
  destruct (existsb _ (group_invitations db)); [ left; reflexivity | ].
  destruct (negb (existsb _ (groups db))); [ left; reflexivity | ].
  destruct (existsb _ (group_invitations db)); [ left; reflexivity | ].
  right. split; [ exact Hle | ].
  eexists. split; [ | reflexivity ].
  apply (lookupGroup_GroupID db groupID group Hlook).
Qed.

Lemma invitationCount_added (g : string) (invitation : GroupInvitation) :
  invitationCount
    (mkStore (groups db) (users db) (participants db)
       (group_invitations db ++ [invitation])) g
  = invitationCount db g
    + (if (inv_GroupID invitation =? g)%string then 1 else 0).
Proof.
  unfold invitationCount. cbn.
  rewrite filter_app, length_app. cbn.
  destruct (inv_GroupID invitation =? g)%string; cbn; lia.
Qed.

(** The cap that the test [count > 7] does enforce is eight rows a group. *)
Lemma at_most_eight_invitations (g : string) :
  invitationCount db g <= 8 ->
  invitationCount (storeAfter (CreateGroupInvitation w db user groupID email)) g <= 8.
Proof.
  intros Hcap.
  destruct create_outcome as [-> | (Hle & invitation & Hid & ->)]; [ exact Hcap | ].
  rewrite invitationCount_added.
  destruct (inv_GroupID invitation =? g)%string eqn:E; [ | lia ].
  apply String.eqb_eq in E. subst. lia.
Qed.

(** C8: in both workflows a missing group is a silent no-op: issuance on a
    group that does not exist (and passes the capacity check) returns no
    invitation and no error, redemption on a group that does not exist
    returns no group and no error, and neither writes to the store. *)
Theorem missing_group_is_silent_noop :
  fault_findGroup (faults w) = None ->
  lookupGroup db groupID = None ->
  (fault_countInvitations (faults w) = None ->
   invitationCount db groupID <= 7 ->
   CreateGroupInvitation w db user groupID email = ((None, None), db))
  /\ (forall code,
        JoinGroupByInvitation w db user groupID code = ((None, None), db)).
Proof.
  intros Hg Hlook. split.
  - intros Hf Hle. apply create_missing_group; assumption.
  - intros code. apply join_missing_group; assumption.
Qed.

End Capacity.

(** ** The code at concrete inputs *)

(** C1: the capacity cap of MaxGroupInvitations = 7 is not what the code
    enforces.  With exactly 7 invitation rows for the group, an issuance by
    the owner is not rejected: it returns the new invitation and no error,
    and the group has 8 rows afterwards. *)
Theorem eighth_invitation_is_written :
  invitationCount Sample.seven "g" = MaxGroupInvitations
  /\ returned (CreateGroupInvitation Sample.world Sample.seven Sample.owner
                 "g" "new@example.com")
     = Some (mkGroupInvitation "i9" "g" "new@example.com" "2345" zeroTime 2)
  /\ failure (CreateGroupInvitation Sample.world Sample.seven Sample.owner
                "g" "new@example.com") = None
  /\ invitationCount
       (storeAfter (CreateGroupInvitation Sample.world Sample.seven Sample.owner
                      "g" "new@example.com")) "g" = 8.
Proof. vm_compute. repeat split. Qed.

(** With 8 rows the next issuance is the first to be refused. *)
Lemma ninth_invitation_is_refused :
  CreateGroupInvitation Sample.world Sample.eight Sample.owner "g" "new@example.com"
  = ((None, Some TooManyGroupInvitationsError), Sample.eight).
Proof. vm_compute. reflexivity. Qed.


(** In a store whose count disagrees with the participant rows, a
    redemption recounts: the count written is the number of rows plus one,
    whatever was stored before. *)
Lemma skewed_count_is_recounted :
  storedUsersCount Sample.skewed "g" = Some 5
  /\ participantCount Sample.skewed "g" = 0
  /\ storedUsersCount
       (storeAfter (JoinGroupByInvitation Sample.world Sample.skewed Sample.guest
                      "g" "4821")) "g" = Some 1.
Proof. vm_compute. repeat split. Qed.

(** A non-owner asking for a ninth invitation is told of the capacity, not
    of the ownership. *)
Lemma capacity_check_comes_first_witness :
  CreateGroupInvitation Sample.world Sample.eight Sample.guest "g" "c@example.com"
  = ((None, Some TooManyGroupInvitationsError), Sample.eight).
Proof.
  apply capacity_check_comes_first; [ reflexivity | vm_compute; reflexivity ].
Defined.

Lemma non_owner_is_forbidden_witness :
  CreateGroupInvitation Sample.world Sample.seven Sample.guest "g" "c@example.com"
  = ((None, Some ForbiddenError), Sample.seven)
  /\ group_invitations
       (storeAfter (CreateGroupInvitation Sample.world Sample.seven Sample.guest
                      "g" "c@example.com"))
     = group_invitations Sample.seven.
Proof.
  apply (non_owner_is_forbidden Sample.world Sample.seven Sample.guest "g"
           "c@example.com" (mkGroup "g" "u1" 0 "" None)).
  - reflexivity.
  - vm_compute. discriminate.
  - reflexivity.
  - reflexivity.
  - discriminate.
Defined.

Lemma missing_group_is_silent_noop_witness :
  CreateGroupInvitation Sample.world Sample.seven Sample.owner "h" "c@example.com"
  = ((None, None), Sample.seven)
  /\ JoinGroupByInvitation Sample.world Sample.seven Sample.guest "h" "4821"
     = ((None, None), Sample.seven).
Proof.
  split.
  - apply (proj1 (missing_group_is_silent_noop Sample.world Sample.seven
                    Sample.owner "h" "c@example.com" eq_refl eq_refl)).
    + reflexivity.
    + vm_compute. discriminate.
  - apply (proj2 (missing_group_is_silent_noop Sample.world Sample.seven
                    Sample.guest "h" "c@example.com" eq_refl eq_refl)).
Defined.

(** The supplied code [" 12x3 "] is trimmed to ["12x3"], which is not the
    stored code. *)
Lemma invalid_code_iff_mismatch_witness :
  TrimSpace " 12x3 " = "12x3"
  /\ failure (JoinGroupByInvitation Sample.world Sample.invited Sample.guest
                "g" " 12x3 ")
     = Some InvalidGroupInvitationCodeError.
Proof.
  split; [ reflexivity | ].
  apply (proj2 (invalid_code_iff_mismatch Sample.world Sample.invited Sample.guest
                  "g" " 12x3 " (mkGroup "g" "u1" 0 "" None)
                  (Sample.invitation "i0" "a@example.com" "4821")
                  eq_refl eq_refl eq_refl eq_refl)).
  vm_compute. discriminate.
Defined.


(** The participant row cannot be created: the count the transaction had
    written is not in the store after the call, nor is the deletion. *)
Lemma JoinGroupByInvitation_atomic_witness :
  failure (JoinGroupByInvitation Sample.faulty Sample.invited Sample.guest
             "g" "4821")
  = Some (TransactionError (PlainError "connection reset"))
  /\ storeAfter (JoinGroupByInvitation Sample.faulty Sample.invited Sample.guest
                   "g" "4821") = Sample.invited.
Proof.
  split; [ reflexivity | ].
  apply (proj1 (JoinGroupByInvitation_atomic Sample.faulty Sample.invited
                  Sample.guest "g" "4821"))
    with (err := TransactionError (PlainError "connection reset")).
  reflexivity.
Defined.

Lemma redemption_creates_vip_participant_witness :
  participants
    (storeAfter (JoinGroupByInvitation Sample.world Sample.invited Sample.guest
                   "g" " 4821 "))
  = [mkParticipant "g" "u2" "VIP" "invitation"]
  /\ returned (JoinGroupByInvitation Sample.world Sample.invited Sample.guest
                 "g" " 4821 ")
     = Some (mkGroup "g" "u1" 1 "VIP" (Some Sample.owner)).
Proof.
  split; [ | reflexivity ].
  apply (redemption_creates_vip_participant "g" Sample.world Sample.invited
           Sample.guest " 4821 " (mkGroup "g" "u1" 1 "VIP" (Some Sample.owner))).
  split; [ discriminate | reflexivity ].
Defined.

Lemma usersCount_counts_participants_witness :
  storedUsersCount
    (storeAfter (JoinGroupByInvitation Sample.world Sample.invited Sample.guest
                   "g" "4821")) "g" = Some 1
  /\ participantCount
       (storeAfter (JoinGroupByInvitation Sample.world Sample.invited Sample.guest
                      "g" "4821")) "g" = 1.
Proof.
  apply (proj2 (usersCount_counts_participants "g") 1%nat 0 Sample.invited).
  - apply redemptions_more
      with (w := Sample.world) (user := Sample.guest) (code := "4821")
           (group := mkGroup "g" "u1" 1 "VIP" (Some Sample.owner))
           (db' := storeAfter (JoinGroupByInvitation Sample.world Sample.invited
                                 Sample.guest "g" "4821")).
    + split; [ discriminate | reflexivity ].
    + apply redemptions_none.
  - reflexivity.
  - reflexivity.
  - vm_compute. discriminate.
Defined.

(** * Further properties of the two workflows *)

(** ** Lists of rows *)

Section Rows.

Context {A : Type}.

Lemma find_none_existsb (f : A -> bool) (l : list A) :
  find f l = None <-> existsb f l = false.
Proof.
  induction l as [ | a l IH]; cbn; [ tauto | ].
  destruct (f a); cbn; [ split; discriminate | exact IH ].
Qed.

Lemma find_app_none (f : A -> bool) (l l' : list A) :
  find f l = None -> find f (l ++ l') = find f l'.
Proof.
  induction l as [ | a l IH]; cbn; [ reflexivity | ].
  destruct (f a); [ discriminate | exact IH ].
Qed.

Lemma find_app_some (f : A -> bool) (l l' : list A) (a : A) :
  find f l = Some a -> find f (l ++ l') = Some a.
Proof.
  induction l as [ | x l IH]; cbn; [ discriminate | ].
  destruct (f x); [ trivial | exact IH ].
Qed.

Lemma filter_all (f : A -> bool) (l : list A) :
  (forall a, In a l -> f a = true) -> filter f l = l.
Proof.
  induction l as [ | a l IH]; cbn; intros H; [ reflexivity | ].
  rewrite (H a) by auto. f_equal. apply IH. auto.
Qed.

End Rows.

(** ** Issuance by the owner *)

Section IssuanceByOwner.

Variables (w : World) (db : Store) (user : User) (groupID email : string).
Variable group : Group.

Hypothesis Hcount : fault_countInvitations (faults w) = None.
Hypothesis Hcap : invitationCount db groupID <= 7.
Hypothesis Hfind : fault_findGroup (faults w) = None.
Hypothesis Hgroup : lookupGroup db groupID = Some group.
Hypothesis Howner : UserID user = grp_UserID group.

(** The call once its three checks have passed. *)
Lemma create_by_owner :
  CreateGroupInvitation w db user groupID email
  = finish
      (RunInTransaction
         (code <- call (generateVerificationCode (randRead w)) ;;
          let invitation :=
            mkGroupInvitation (newV4 w) groupID email code zeroTime (Now w) in
          _ <- insertGroupInvitation invitation ;;
          ret (Some invitation)) w db).
Proof.
  unfold CreateGroupInvitation, RunInTransaction.
  rewrite (create_under_capacity w db user groupID email Hcount Hcap Hfind), Hgroup.
  apply String.eqb_eq in Howner. rewrite Howner. cbn [negb].
  rewrite (lookupGroup_GroupID db groupID group Hgroup). reflexivity.
Qed.

Lemma group_row_exists :
  existsb (fun r => (row_group_id r =? groupID)%string) (groups db) = true.
Proof.
  unfold lookupGroup in Hgroup.
  destruct (find _ (groups db)) as [r | ] eqn:E; [ | discriminate ].
  apply existsb_exists. exists r. apply find_some in E. exact E.
Qed.

(** X3: when the random source fails the caller gets the ServerError itself, not
    wrapped in a transaction error, and nothing is written. *)
Theorem issuance_random_failure (cause : error) :
  randRead w = RandFailed cause ->
  CreateGroupInvitation w db user groupID email
  = ((None, Some (ServerError cause)), db).
Proof.
  intros Hrand. rewrite create_by_owner.
  unfold RunInTransaction, bind, call. rewrite Hrand. reflexivity.
Qed.


Lemma create_success (b : Bytes8) :
  randRead w = RandFilled b ->
  fault_insertInvitation (faults w) = None ->
  existsb (fun j => (InvitationID j =? newV4 w)%string) (group_invitations db) = false ->
  lookupInvitation db groupID email = None ->
  CreateGroupInvitation w db user groupID email
  = ((Some (mkGroupInvitation (newV4 w) groupID email (Sprint (specCode b))
              zeroTime (Now w)), None),
     mkStore (groups db) (users db) (participants db)
       (group_invitations db
        ++ [mkGroupInvitation (newV4 w) groupID email (Sprint (specCode b))
              zeroTime (Now w)])).
Proof.
  intros Hrand Hins Hfresh Hnone.
  rewrite create_by_owner.
  unfold RunInTransaction, bind, call. rewrite Hrand.
  rewrite generateVerificationCode_filled.
  unfold ret, insertGroupInvitation, exec. rewrite Hins.
  unfold insertInvitationRow. cbn [InvitationID inv_GroupID inv_Email].
  rewrite Hfresh, group_row_exists. cbn [negb].
  apply find_none_existsb in Hnone. unfold lookupInvitation in Hnone.
  rewrite Hnone. reflexivity.
Qed.

Lemma lookupInvitation_appended (i : GroupInvitation) :
  lookupInvitation db (inv_GroupID i) (inv_Email i) = None ->
  lookupInvitation
    (mkStore (groups db) (users db) (participants db) (group_invitations db ++ [i]))
    (inv_GroupID i) (inv_Email i) = Some i.
Proof.
  intros Hnone. unfold lookupInvitation. cbn [group_invitations].
  rewrite find_app_none by exact Hnone.
  cbn. rewrite !String.eqb_refl. reflexivity.
Qed.

(** X1: the successful issuance: the invitation returned carries the fresh
    identifier, the group, the email, a four-digit code in 1000..9999, no
    sent time and the current time; it is appended to the table, and the
    lookup by group and email finds it. *)
Theorem issuance_succeeds (b : Bytes8) :
  randRead w = RandFilled b ->
  fault_insertInvitation (faults w) = None ->
  existsb (fun j => (InvitationID j =? newV4 w)%string) (group_invitations db) = false ->
  lookupInvitation db groupID email = None ->
  let invitation :=
    mkGroupInvitation (newV4 w) groupID email (Sprint (specCode b)) zeroTime (Now w) in
  CreateGroupInvitation w db user groupID email
  = ((Some invitation, None),
     mkStore (groups db) (users db) (participants db)
       (group_invitations db ++ [invitation]))
  /\ lookupInvitation
       (storeAfter (CreateGroupInvitation w db user groupID email)) groupID email
     = Some invitation
  /\ 1000 <= specCode b <= 9999
  /\ ParseUint (Code invitation) = Some (specCode b).
Proof.
  intros Hrand Hins Hfresh Hnone invitation.
  rewrite (create_success b Hrand Hins Hfresh Hnone).
  split; [ reflexivity | ]. split; [ | split ].
  - apply (lookupInvitation_appended invitation Hnone).
  - apply specCode_range.
  - apply fourDigits_elim, Sprint_fourDigits, specCode_range.
Qed.

End IssuanceByOwner.

(** ** Issuance followed by redemption *)

Section IssueThenRedeem.

Variables (w w' : World) (db : Store) (owner guest : User).
Variables (groupID code : string) (group : Group) (b : Bytes8).

Let email : string := String_ (Email guest).

Let invitation : GroupInvitation :=
  mkGroupInvitation (newV4 w) groupID email (Sprint (specCode b)) zeroTime (Now w).

Let issued : Store :=
  mkStore (groups db) (users db) (participants db)
    (group_invitations db ++ [invitation]).

Hypothesis Hcount : fault_countInvitations (faults w) = None.
Hypothesis Hcap : invitationCount db groupID <= 7.
Hypothesis Hfind : fault_findGroup (faults w) = None.
Hypothesis Hgroup : lookupGroup db groupID = Some group.
Hypothesis Howner : UserID owner = grp_UserID group.
Hypothesis Hrand : randRead w = RandFilled b.
Hypothesis Hins : fault_insertInvitation (faults w) = None.
Hypothesis Hfresh :
  existsb (fun j => (InvitationID j =? newV4 w)%string) (group_invitations db) = false.
Hypothesis Hnone : lookupInvitation db groupID email = None.
Hypothesis Hquiet : faults w' = noFaults.
Hypothesis Hcode : TrimSpace code = Sprint (specCode b).

Lemma deleting_the_issued_row :
  filter (fun i => negb (InvitationID i =? newV4 w)%string)
    (group_invitations db ++ [invitation])
  = group_invitations db.
Proof.
  rewrite filter_app. cbn. rewrite String.eqb_refl. cbn.
  rewrite app_nil_r. apply filter_all.
  intros i Hi. apply negb_true_iff.
  destruct (InvitationID i =? newV4 w)%string eqn:E; [ | reflexivity ].
  rewrite <- Hfresh. symmetry. apply existsb_exists. exists i. auto.
Qed.

(** X6: issuing an invitation to the email of a user and redeeming it with the
    code that was issued (white space around it allowed) makes that user a
    VIP participant: the redemption returns the group with no error, the
    table of invitations is back to what it was before the issuance, one
    participant row is added, and the group's count is the participant count
    read plus one. *)
Theorem issue_then_redeem :
  storeAfter (CreateGroupInvitation w db owner groupID email) = issued
  /\ JoinGroupByInvitation w' issued guest groupID code
     = ((Some (redeemedGroup issued groupID group), None),
        redeemedStore issued groupID guest group invitation)
  /\ group_invitations (redeemedStore issued groupID guest group invitation)
     = group_invitations db
  /\ participants (redeemedStore issued groupID guest group invitation)
     = (participants db
        ++ [mkParticipant groupID (UserID guest) "VIP" "invitation"])%list
  /\ storedUsersCount (redeemedStore issued groupID guest group invitation) groupID
     = Some (int64 (participantCount db groupID + 1)).
Proof.
  assert (Hgroup' : lookupGroup issued groupID = Some group) by exact Hgroup.
  assert (Hfound : lookupInvitation issued groupID (String_ (Email guest))
                   = Some invitation).
  { apply (lookupInvitation_appended db invitation). exact Hnone. }
  split; [ | split; [ | split; [ | split ] ] ].
  - rewrite (create_success w db owner groupID email group
               Hcount Hcap Hfind Hgroup Howner b Hrand Hins Hfresh Hnone).
    reflexivity.
  - rewrite (join_matching_code w' issued guest groupID code group invitation);
      rewrite ?Hquiet; auto.
  - cbn [redeemedStore deleteInvitationRow group_invitations participantWritten
           insertParticipantRow countWritten setUsersCountRow InvitationID
           invitation issued].
    apply deleting_the_issued_row.
  - apply (participants_redeemedStore groupID issued guest group invitation Hgroup').
  - apply (storedUsersCount_redeemedStore groupID issued guest group invitation
             Hgroup').
Qed.

End IssueThenRedeem.

(** ** Every outcome of a call *)

Section Outcomes.

Variables (w : World) (db : Store) (user : User) (groupID : string).

(** The outcomes of an issuance: nothing to do, a failure, or one row
    written after the store's constraints accepted it. *)
Lemma create_cases (email : string) :
  CreateGroupInvitation w db user groupID email = ((None, None), db)
  \/ (exists e, issuanceError w e
                /\ CreateGroupInvitation w db user groupID email
                   = ((None, Some e), db))
  \/ (exists invitation,
         InvitationID invitation = newV4 w
         /\ inv_GroupID invitation = groupID
         /\ inv_Email invitation = email
         /\ invitationCount db groupID <= 7
         /\ existsb (fun j => (InvitationID j =? newV4 w)%string)
              (group_invitations db) = false
         /\ existsb (fun r => (row_group_id r =? groupID)%string) (groups db) = true
         /\ lookupInvitation db groupID email = None
         /\ CreateGroupInvitation w db user groupID email
            = ((Some invitation, None),
               mkStore (groups db) (users db) (participants db)
                 (group_invitations db ++ [invitation]))).
Proof.
  destruct (fault_countInvitations (faults w)) as [msg | ] eqn:Hf.
  { right; left. exists (TransactionError (PlainError msg)).
    split; [ right; right; right; eauto | ].
    unfold CreateGroupInvitation, RunInTransaction,
      createGroupInvitationTx, bind, countGroupInvitations, query.
    rewrite Hf. reflexivity. }
  destruct (Z_gt_le_dec (invitationCount db groupID) 7) as [Hgt | Hle].
  { right; left. exists TooManyGroupInvitationsError.
    split; [ left; reflexivity | ].
    unfold CreateGroupInvitation, RunInTransaction.
    rewrite (create_over_capacity w db user groupID email Hf Hgt). reflexivity. }
  destruct (fault_findGroup (faults w)) as [msg | ] eqn:Hg.
  { right; left. exists (TransactionError (PlainError msg)).
    split; [ right; right; right; eauto | ].
    unfold CreateGroupInvitation, RunInTransaction,
      createGroupInvitationTx, bind, countGroupInvitations, findGroup, query.
    rewrite Hf.
    destruct (Z.gtb_spec (invitationCount db groupID) 7); [ lia | ].
    rewrite Hg. reflexivity. }
  destruct (lookupGroup db groupID) as [group | ] eqn:Hlook;
    [ | left; apply create_missing_group; assumption ].
  destruct (string_dec (UserID user) (grp_UserID group)) as [Howner | Hother].
  2:{ right; left. exists ForbiddenError. split; [ right; left; reflexivity | ].
      unfold CreateGroupInvitation, RunInTransaction.
      rewrite (create_under_capacity w db user groupID email Hf Hle Hg), Hlook.
      apply String.eqb_neq in Hother. rewrite Hother. reflexivity. }
  destruct (randRead w) as [b | cause] eqn:Hrand.
  2:{ right; left. exists (ServerError cause).
      split; [ right; right; left; eauto | ].
      rewrite (create_by_owner w db user groupID email group Hf Hle Hg Hlook Howner).
      unfold RunInTransaction, bind, call. rewrite Hrand. reflexivity. }
  rewrite (create_by_owner w db user groupID email group Hf Hle Hg Hlook Howner).
  unfold RunInTransaction, bind, call. rewrite Hrand.
  rewrite generateVerificationCode_filled.
  unfold ret, insertGroupInvitation, exec.
  destruct (fault_insertInvitation (faults w)) as [msg | ].
  { right; left. exists (TransactionError (PlainError msg)).
    split; [ right; right; right; eauto | reflexivity ]. }
  unfold insertInvitationRow. cbn [InvitationID inv_GroupID inv_Email].
  destruct (existsb (fun j => (InvitationID j =? newV4 w)%string)
              (group_invitations db)) eqn:Hid.
  { right; left. eexists. split; [ right; right; right; eauto | reflexivity ]. }
  rewrite (group_row_exists db groupID group Hlook). cbn [negb].
  destruct (existsb (fun j => (inv_GroupID j =? groupID)%string
                              && (inv_Email j =? email)%string)
              (group_invitations db)) eqn:Hkey.
  { right; left. eexists. split; [ right; right; right; eauto | reflexivity ]. }
  right; right. eexists. repeat split; try reflexivity; try assumption.
  apply find_none_existsb. exact Hkey.
Qed.

(** The outcomes of a redemption: nothing to do (no group, or the group
    loaded and no invitation), a failure, or the three writes. *)
Lemma join_cases (code : string) :
  (exists r, JoinGroupByInvitation w db user groupID code = ((r, None), db)
             /\ (r = None \/ lookupInvitation db groupID (String_ (Email user)) = None))
  \/ (exists e, redemptionError e
                /\ JoinGroupByInvitation w db user groupID code
                   = ((None, Some e), db))
  \/ (exists loaded invitation,
         lookupGroup db groupID = Some loaded
         /\ lookupInvitation db groupID (String_ (Email user)) = Some invitation
         /\ Code invitation = TrimSpace code
         /\ JoinGroupByInvitation w db user groupID code
            = ((Some (redeemedGroup db groupID loaded), None),
               redeemedStore db groupID user loaded invitation)).
Proof.
  destruct (fault_findGroup (faults w)) as [msg | ] eqn:Hg.
  { right; left. exists (TransactionError (PlainError msg)).
    split; [ right; eauto | ].
    unfold JoinGroupByInvitation, RunInTransaction,
      joinGroupByInvitationTx, bind, findGroup, query.
    rewrite Hg. reflexivity. }
  destruct (lookupGroup db groupID) as [loaded | ] eqn:Hlook.
  2:{ left. exists None. split; [ | left; reflexivity ].
      apply join_missing_group; assumption. }
  destruct (fault_findInvitation (faults w)) as [msg | ] eqn:Hi.
  { right; left. exists (TransactionError (PlainError msg)).
    split; [ right; eauto | ].
    unfold JoinGroupByInvitation, RunInTransaction.
    rewrite (join_until_invitation w db user groupID code Hg), Hlook, Hi.
    reflexivity. }
  destruct (lookupInvitation db groupID (String_ (Email user)))
    as [invitation | ] eqn:Hfound.
  2:{ left. exists (Some loaded). split; [ | right; reflexivity ].
      apply join_no_invitation; assumption. }
  destruct (string_dec (Code invitation) (TrimSpace code)) as [Heq | Hneq].
  2:{ right; left. exists InvalidGroupInvitationCodeError.
      split; [ left; reflexivity | ].
      apply (join_mismatching_code w db user groupID code loaded invitation);
        assumption. }
  pose proof (join_matching_code w db user groupID code loaded invitation
                Hg Hlook Hi Hfound Heq) as E.
  destruct (fault_findUser (faults w)) as [msg | ];
    [ right; left; exists (TransactionError (PlainError msg));
      split; [ right; eauto | exact E ] | ].
  destruct (fault_countParticipants (faults w)) as [msg | ];
    [ right; left; exists (TransactionError (PlainError msg));
      split; [ right; eauto | exact E ] | ].
  destruct (fault_updateGroup (faults w)) as [msg | ];
    [ right; left; exists (TransactionError (PlainError msg));
      split; [ right; eauto | exact E ] | ].
  destruct (fault_createParticipant (faults w)) as [msg | ];
    [ right; left; exists (TransactionError (PlainError msg));
      split; [ right; eauto | exact E ] | ].
  destruct (fault_deleteInvitation (faults w)) as [msg | ];
    [ right; left; exists (TransactionError (PlainError msg));
      split; [ right; eauto | exact E ] | ].
  right; right. exists loaded, invitation. auto.
Qed.

End Outcomes.

(** ** Failures and frames *)

Section Frames.

Variables (w : World) (db : Store) (user : User) (groupID : string).

(** X4: a failed issuance hands the caller one of four errors: the capacity
    condition, the ownership condition, the ServerError of a failed random
    source, or a transaction error wrapping a driver error; it returns no
    invitation and writes nothing. *)
Theorem issuance_failures (email : string) (e : error) :
  failure (CreateGroupInvitation w db user groupID email) = Some e ->
  issuanceError w e
  /\ returned (CreateGroupInvitation w db user groupID email) = None
  /\ storeAfter (CreateGroupInvitation w db user groupID email) = db.
Proof.
  destruct (create_cases w db user groupID email)
    as [E | [(e' & He & E) | (i & _ & _ & _ & _ & _ & _ & _ & E)]];
    rewrite E; cbn; intros H; try discriminate.
  injection H as <-. auto.
Qed.

(** X7: a failed redemption hands the caller the invalid-code condition or a
    transaction error wrapping a driver error, never the conditions of the
    issuance; it returns no group and writes nothing. *)
Theorem redemption_failures (code : string) (e : error) :
  failure (JoinGroupByInvitation w db user groupID code) = Some e ->
  redemptionError e
  /\ returned (JoinGroupByInvitation w db user groupID code) = None
  /\ storeAfter (JoinGroupByInvitation w db user groupID code) = db.
Proof.
  destruct (join_cases w db user groupID code)
    as [(r & E & _) | [(e' & He & E) | (g & i & _ & _ & _ & E)]];
    rewrite E; cbn; intros H; try discriminate.
  injection H as <-. auto.
Qed.

(** X5: an issuance never touches the groups, the users or the participants, and
    never alters or removes an invitation: either the invitations are as
    they were and nothing is returned, or the one invitation returned, for
    this group and email under the fresh identifier, is appended. *)
Theorem issuance_frame (email : string) :
  groups (storeAfter (CreateGroupInvitation w db user groupID email)) = groups db
  /\ users (storeAfter (CreateGroupInvitation w db user groupID email)) = users db
  /\ participants (storeAfter (CreateGroupInvitation w db user groupID email))
     = participants db
  /\ ((returned (CreateGroupInvitation w db user groupID email) = None
       /\ group_invitations (storeAfter (CreateGroupInvitation w db user groupID email))
          = group_invitations db)
      \/ exists invitation,
           returned (CreateGroupInvitation w db user groupID email) = Some invitation
           /\ failure (CreateGroupInvitation w db user groupID email) = None
           /\ InvitationID invitation = newV4 w
           /\ inv_GroupID invitation = groupID
           /\ inv_Email invitation = email
           /\ group_invitations
                (storeAfter (CreateGroupInvitation w db user groupID email))
              = (group_invitations db ++ [invitation])%list).
Proof.
  destruct (create_cases w db user groupID email)
    as [E | [(e' & He & E) | (i & Hid & Hg & He & _ & _ & _ & _ & E)]];
    rewrite E; cbn; repeat split; auto.
  right. exists i. repeat split; assumption.
Qed.

Lemma find_setUsersCount_other (count : Z) (g : string) (rows : list GroupRow) :
  g <> groupID ->
  find (fun r => (row_group_id r =? g)%string)
    (map (fun r => if (row_group_id r =? groupID)%string
                   then mkGroupRow (row_group_id r) (row_user_id r) count
                   else r) rows)
  = find (fun r => (row_group_id r =? g)%string) rows.
Proof.
  intros Hneq. induction rows as [ | r rows IH]; [ reflexivity | ].
  cbn. destruct (row_group_id r =? groupID)%string eqn:E; cbn.
  - apply String.eqb_eq in E.
    destruct (row_group_id r =? g)%string eqn:E'; [ | exact IH ].
    apply String.eqb_eq in E'. congruence.
  - destruct (row_group_id r =? g)%string; [ reflexivity | exact IH ].
Qed.

Lemma setUsersCount_keeps_ids (count : Z) (rows : list GroupRow) :
  map (fun r => (row_group_id r, row_user_id r))
    (map (fun r => if (row_group_id r =? groupID)%string
                   then mkGroupRow (row_group_id r) (row_user_id r) count
                   else r) rows)
  = map (fun r => (row_group_id r, row_user_id r)) rows.
Proof.
  rewrite map_map. apply map_ext. intros r.
  destruct (row_group_id r =? groupID)%string; reflexivity.
Qed.

(** X8: a redemption never touches the users, never changes which groups exist
    or who owns them, never changes the count or the participants of
    another group, never adds an invitation, and adds at most one
    participant, at the end of the table. *)
Theorem redemption_frame (code : string) :
  let db' := storeAfter (JoinGroupByInvitation w db user groupID code) in
  users db' = users db
  /\ map (fun r => (row_group_id r, row_user_id r)) (groups db')
     = map (fun r => (row_group_id r, row_user_id r)) (groups db)
  /\ (forall g, g <> groupID ->
                storedUsersCount db' g = storedUsersCount db g
                /\ participantCount db' g = participantCount db g)
  /\ (forall i, In i (group_invitations db') -> In i (group_invitations db))
  /\ (participants db' = participants db
      \/ participants db'
         = (participants db
            ++ [mkParticipant groupID (UserID user) "VIP" "invitation"])%list).
Proof.
  destruct (join_cases w db user groupID code)
    as [(r & E & _) | [(e' & He & E) | (g & i & Hlook & _ & _ & E)]];
    rewrite E; cbn zeta; unfold storeAfter; cbn [snd]; auto 6.
  pose proof (lookupGroup_GroupID db groupID g Hlook) as Hid.
  split; [ reflexivity | ]. split; [ | split; [ | split ] ].
  - cbn. rewrite Hid. apply setUsersCount_keeps_ids.
  - intros g' Hneq. split.
    + unfold storedUsersCount. cbn. rewrite Hid.
      rewrite find_setUsersCount_other by exact Hneq. reflexivity.
    + unfold participantCount.
      rewrite (participants_redeemedStore groupID db user g i Hlook).
      rewrite filter_app, length_app. cbn.
      apply String.eqb_neq in Hneq. rewrite String.eqb_sym, Hneq. cbn. lia.
  - intros j Hj. cbn in Hj. apply filter_In in Hj. tauto.
  - right. apply (participants_redeemedStore groupID db user g i Hlook).
Qed.

End Frames.

(** ** Keys *)

Section Keys.

Context {A B : Type}.
Variable f : A -> B.

Lemma NoDup_map_snoc (l : list A) (a : A) :
  NoDup (map f l) -> ~ In (f a) (map f l) -> NoDup (map f (l ++ [a])).
Proof.
  induction l as [ | x l IH]; cbn; intros Hnd Hnew.
  - constructor; [ intros [] | constructor ].
  - inversion Hnd as [ | y ys Hx Hl]; subst.
    constructor.
    + rewrite map_app, in_app_iff. cbn. intros [H | [H | []]]; [ tauto | ].
      apply Hnew. left. symmetry. exact H.
    + apply IH; [ exact Hl | tauto ].
Qed.

Lemma NoDup_map_filter (p : A -> bool) (l : list A) :
  NoDup (map f l) -> NoDup (map f (filter p l)).
Proof.
  induction l as [ | x l IH]; cbn; intros Hnd; [ constructor | ].
  inversion Hnd as [ | y ys Hx Hl]; subst.
  destruct (p x); cbn; [ | auto ].
  constructor; [ | auto ].
  intros H. apply Hx. apply in_map_iff in H. destruct H as (a & Ha & Hin).
  apply in_map_iff. exists a. apply filter_In in Hin. tauto.
Qed.

Lemma NoDup_map_inj (l : list A) (a a' : A) :
  NoDup (map f l) -> In a l -> In a' l -> f a = f a' -> a = a'.
Proof.
  induction l as [ | x l IH]; cbn; intros Hnd Ha Ha' E; [ tauto | ].
  inversion Hnd as [ | y ys Hx Hl]; subst.
  destruct Ha as [-> | Ha], Ha' as [-> | Ha']; auto.
  - exfalso. apply Hx. rewrite E. apply in_map. exact Ha'.
  - exfalso. apply Hx. rewrite <- E. apply in_map. exact Ha.
Qed.

End Keys.

Lemma fresh_identifier (rows : list GroupInvitation) (id : string) :
  existsb (fun j => (InvitationID j =? id)%string) rows = false ->
  ~ In id (map InvitationID rows).
Proof.
  intros Hfresh Hin. apply in_map_iff in Hin. destruct Hin as (j & <- & Hj).
  apply not_true_iff_false in Hfresh. apply Hfresh, existsb_exists.
  exists j. split; [ exact Hj | apply String.eqb_refl ].
Qed.

Lemma fresh_key (db : Store) (g e : string) :
  lookupInvitation db g e = None ->
  ~ In (g, e) (map invitationKey (group_invitations db)).
Proof.
  intros Hnone Hin. apply in_map_iff in Hin. destruct Hin as (j & E & Hj).
  injection E as <- <-.
  apply find_none_existsb in Hnone.
  apply not_true_iff_false in Hnone. apply Hnone, existsb_exists.
  exists j. rewrite !String.eqb_refl. auto.
Qed.

(** Removing the rows with the identifier of one row of a table whose
    identifiers are unique removes that row alone. *)
Lemma filter_out_one (p : GroupInvitation -> bool) (rows : list GroupInvitation)
    (a : GroupInvitation) :
  NoDup (map InvitationID rows) -> In a rows ->
  Z.of_nat (List.length
    (filter p (filter (fun j => negb (InvitationID j =? InvitationID a)%string) rows)))
  = Z.of_nat (List.length (filter p rows)) - (if p a then 1 else 0).
Proof.
  induction rows as [ | x rows IH]; cbn [In]; intros Hnd Ha; [ tauto | ].
  inversion Hnd as [ | y ys Hx Hl]; subst.
  destruct Ha as [-> | Ha].
  - cbn [filter]. rewrite String.eqb_refl. cbn [negb].
    rewrite (filter_all (fun j => negb (InvitationID j =? InvitationID a)%string) rows).
    + destruct (p a); cbn [List.length]; lia.
    + intros j Hj. apply negb_true_iff, String.eqb_neq.
      intros E. apply Hx. rewrite <- E. apply in_map. exact Hj.
  - assert (Hne : (InvitationID x =? InvitationID a)%string = false).
    { apply String.eqb_neq. intros E. apply Hx. rewrite E. apply in_map. exact Ha. }
    cbn [filter]. rewrite Hne. cbn [negb filter].
    specialize (IH Hl Ha).
    destruct (p x); cbn [List.length]; lia.
Qed.

Section SingleUse.

Variables (groupID : string) (w : World) (db : Store) (user : User) (code : string).
Variables (group : Group) (db' : Store).

(** X9: an invitation is single-use.  In a store whose keys are unique, a
    successful redemption removes exactly the invitation of the user for the
    group: none is left for that pair, the group has one invitation fewer,
    every other group has as many as before, and every other row is kept. *)
Theorem redemption_consumes_invitation :
  keysUnique db ->
  redemption groupID w db user code group db' ->
  lookupInvitation db' groupID (String_ (Email user)) = None
  /\ invitationCount db' groupID = invitationCount db groupID - 1
  /\ (forall g, g <> groupID -> invitationCount db' g = invitationCount db g)
  /\ (forall i, In i (group_invitations db) ->
                Some i <> lookupInvitation db groupID (String_ (Email user)) ->
                In i (group_invitations db')).
Proof.
  intros [Hids Hkeys] H. apply redemption_inv in H.
  destruct H as (loaded & invitation & Hlook & Hfound & _ & _ & ->).
  pose proof (find_some _ _ Hfound) as [Hin Hkey].
  apply andb_true_iff in Hkey. destruct Hkey as [Hg He].
  apply String.eqb_eq in Hg, He.
  rewrite Hfound.
  split; [ | split; [ | split ] ].
  - unfold lookupInvitation. cbn [redeemedStore deleteInvitationRow group_invitations].
    destruct (find _ (filter _ _)) as [j | ] eqn:Hj; [ exfalso | reflexivity ].
    apply find_some in Hj. destruct Hj as [Hj Hjk].
    apply filter_In in Hj. destruct Hj as [Hj Hne].
    apply andb_true_iff in Hjk. destruct Hjk as [Hjg Hje].
    apply String.eqb_eq in Hjg, Hje.
    assert (j = invitation).
    { apply (NoDup_map_inj invitationKey (group_invitations db)); auto.
      unfold invitationKey. congruence. }
    subst j. rewrite String.eqb_refl in Hne. discriminate.
  - unfold invitationCount.
    cbn [redeemedStore deleteInvitationRow group_invitations].
    rewrite (filter_out_one _ _ invitation Hids Hin).
    rewrite Hg, String.eqb_refl. reflexivity.
  - intros g Hneq. unfold invitationCount.
    cbn [redeemedStore deleteInvitationRow group_invitations].
    rewrite (filter_out_one _ _ invitation Hids Hin).
    rewrite Hg. apply String.eqb_neq in Hneq.
    rewrite String.eqb_sym, Hneq. lia.
  - intros i Hi Hother.
    cbn [redeemedStore deleteInvitationRow group_invitations].
    apply filter_In. split; [ exact Hi | ].
    apply negb_true_iff, String.eqb_neq. intros E.
    apply Hother. f_equal.
    apply (NoDup_map_inj InvitationID (group_invitations db)); auto.
Qed.

End SingleUse.

(** ** Invariants of the store under any sequence of calls *)

Lemma runCalls_invariant (P : Store -> Prop) :
  (forall db c, P db -> P (runCall db c)) ->
  forall cs db, P db -> P (runCalls db cs).
Proof.
  intros Hstep cs. unfold runCalls.
  induction cs as [ | c cs IH]; cbn; intros db H; [ exact H | ].
  apply IH, Hstep, H.
Qed.

Lemma group_ids_kept (rows rows' : list GroupRow) (g : string) :
  map (fun r => (row_group_id r, row_user_id r)) rows'
  = map (fun r => (row_group_id r, row_user_id r)) rows ->
  existsb (fun r => (row_group_id r =? g)%string) rows = true ->
  existsb (fun r => (row_group_id r =? g)%string) rows' = true.
Proof.
  intros E H. apply existsb_exists in H. destruct H as (r & Hr & Hid).
  apply (in_map (fun r => (row_group_id r, row_user_id r))) in Hr.
  rewrite <- E in Hr. apply in_map_iff in Hr. destruct Hr as (r' & E' & Hr').
  apply existsb_exists. exists r'. split; [ exact Hr' | ].
  injection E' as -> _. exact Hid.
Qed.

Lemma runCall_keeps_keys (db : Store) (c : Call) :
  keysUnique db /\ invitationsReferGroups db ->
  keysUnique (runCall db c) /\ invitationsReferGroups (runCall db c).
Proof.
  intros [[Hids Hkeys] Hrefs].
  destruct c as [w user groupID email | w user groupID code]; cbn [runCall].
  - destruct (create_cases w db user groupID email)
      as [E | [(e & _ & E) | (i & Hid & Hg & He & _ & Hfresh & Hexists & Hnone & E)]];
      rewrite E; unfold storeAfter; cbn [snd]; [ repeat split; assumption .. | ].
    split; [ split | ]; cbn [group_invitations].
    + apply NoDup_map_snoc; [ exact Hids | ].
      rewrite Hid. apply fresh_identifier. exact Hfresh.
    + apply NoDup_map_snoc; [ exact Hkeys | ].
      unfold invitationKey at 1. rewrite Hg, He. apply fresh_key. exact Hnone.
    + intros j Hj. cbn [groups group_invitations] in *.
      apply in_app_iff in Hj. destruct Hj as [Hj | [<- | []]]; [ auto | ].
      rewrite Hg. exact Hexists.
  - destruct (join_cases w db user groupID code)
      as [(r & E & _) | [(e & _ & E) | (g & i & _ & _ & _ & E)]];
      rewrite E; unfold storeAfter; cbn [snd];
      [ repeat split; assumption .. | ].
    split; [ split | ].
    + apply NoDup_map_filter. exact Hids.
    + apply NoDup_map_filter. exact Hkeys.
    + intros j Hj. cbn in Hj. apply filter_In in Hj. destruct Hj as [Hj _].
      apply (group_ids_kept (groups db)); [ | apply Hrefs, Hj ].
      cbn. apply setUsersCount_keeps_ids.
Qed.

(** X11: the constraints that [groupInvitationsDDL] declares hold after any
    sequence of issuances and redemptions, successful or not, if they held
    before: invitation identifiers are unique, pairs of group and email are
    unique, and every invitation refers to an existing group. *)
Theorem constraints_are_kept (cs : list Call) (db : Store) :
  keysUnique db -> invitationsReferGroups db ->
  keysUnique (runCalls db cs) /\ invitationsReferGroups (runCalls db cs).
Proof.
  intros Hk Hr.
  apply (runCalls_invariant
           (fun s => keysUnique s /\ invitationsReferGroups s)); auto.
  apply runCall_keeps_keys.
Qed.

Lemma filter_filter_shorter {A : Type} (p q : A -> bool) (l : list A) :
  (List.length (filter p (filter q l)) <= List.length (filter p l))%nat.
Proof.
  induction l as [ | a l IH]; cbn; [ lia | ].
  destruct (q a); cbn; destruct (p a); cbn; lia.
Qed.

Lemma runCall_keeps_capacity (db : Store) (c : Call) :
  (forall g, invitationCount db g <= 8) ->
  forall g, invitationCount (runCall db c) g <= 8.
Proof.
  intros Hcap g.
  destruct c as [w user groupID email | w user groupID code]; cbn [runCall].
  - apply at_most_eight_invitations, Hcap.
  - destruct (join_cases w db user groupID code)
      as [(r & E & _) | [(e & _ & E) | (g' & i & _ & _ & _ & E)]];
      rewrite E; unfold storeAfter; cbn [snd]; [ apply Hcap .. | ].
    specialize (Hcap g). unfold invitationCount in *.
    cbn [redeemedStore deleteInvitationRow group_invitations participantWritten
           insertParticipantRow countWritten setUsersCountRow].
    pose proof (filter_filter_shorter
                  (fun i0 => (inv_GroupID i0 =? g)%string)
                  (fun i0 => negb (InvitationID i0 =? InvitationID i)%string)
                  (group_invitations db)).
    lia.
Qed.

(** X12: the cap that the code enforces: from a store in which no group has more
    than 8 invitations, no sequence of issuances and redemptions reaches a
    store in which a group has more than 8. *)
Theorem never_more_than_eight_invitations (cs : list Call) (db : Store) :
  (forall g, invitationCount db g <= 8) ->
  forall g, invitationCount (runCalls db cs) g <= 8.
Proof.
  apply (runCalls_invariant (fun s => forall g, invitationCount s g <= 8)).
  apply runCall_keeps_capacity.
Qed.

Lemma participantCount_le_length (db : Store) (g : string) :
  participantCount db g <= Z.of_nat (List.length (participants db)).
Proof.
  unfold participantCount.
  pose proof (filter_length_le (fun p => (par_GroupID p =? g)%string) (participants db)).
  lia.
Qed.

Lemma other_groups_untouched (db : Store) (groupID : string) (user : User)
    (loaded : Group) (invitation : GroupInvitation) (g : string) :
  lookupGroup db groupID = Some loaded ->
  g <> groupID ->
  storedUsersCount (redeemedStore db groupID user loaded invitation) g
  = storedUsersCount db g
  /\ participantCount (redeemedStore db groupID user loaded invitation) g
     = participantCount db g.
Proof.
  intros Hlook Hneq. split.
  - unfold storedUsersCount. cbn.
    rewrite (lookupGroup_GroupID db groupID loaded Hlook).
    rewrite find_setUsersCount_other by exact Hneq. reflexivity.
  - unfold participantCount.
    rewrite (participants_redeemedStore groupID db user loaded invitation Hlook).
    rewrite filter_app, length_app. cbn.
    apply String.eqb_neq in Hneq. rewrite String.eqb_sym, Hneq. cbn. lia.
Qed.

Lemma runCall_participants_grow (db : Store) (c : Call) :
  (List.length (participants (runCall db c)) <= S (List.length (participants db)))%nat.
Proof.
  destruct c as [w user groupID email | w user groupID code]; cbn [runCall].
  - destruct (create_cases w db user groupID email)
      as [E | [(e & _ & E) | (i & _ & _ & _ & _ & _ & _ & _ & E)]];
      rewrite E; cbn; lia.
  - destruct (join_cases w db user groupID code)
      as [(r & E & _) | [(e & _ & E) | (g & i & Hlook & _ & _ & E)]];
      rewrite E; unfold storeAfter; cbn [snd]; [ lia .. | ].
    rewrite (participants_redeemedStore groupID db user g i Hlook).
    rewrite length_app. cbn. lia.
Qed.

Lemma runCall_keeps_counts (db : Store) (c : Call) :
  countsConsistent db ->
  Z.of_nat (List.length (participants db)) < maxInt64 ->
  countsConsistent (runCall db c).
Proof.
  intros Hcons Hmax.
  destruct c as [w user groupID email | w user groupID code]; cbn [runCall].
  - destruct (create_cases w db user groupID email)
      as [E | [(e & _ & E) | (i & _ & _ & _ & _ & _ & _ & _ & E)]];
      rewrite E; unfold storeAfter; cbn [snd]; exact Hcons.
  - destruct (join_cases w db user groupID code)
      as [(r & E & _) | [(e & _ & E) | (loaded & i & Hlook & _ & _ & E)]];
      rewrite E; unfold storeAfter; cbn [snd]; try exact Hcons.
    intros g k Hk.
    destruct (string_dec g groupID) as [-> | Hneq].
    + rewrite (storedUsersCount_redeemedStore groupID db user loaded i Hlook) in Hk.
      rewrite (participantCount_redeemedStore groupID db user loaded i Hlook).
      injection Hk as <-.
      pose proof (participantCount_le_length db groupID).
      pose proof (participantCount_nonneg groupID db).
      rewrite int64_small; [ reflexivity | unfold maxInt64 in *; lia ].
    + destruct (other_groups_untouched db groupID user loaded i g Hlook Hneq)
        as [Hs Hp].
      rewrite Hp. apply Hcons. rewrite <- Hs. exact Hk.
Qed.

(** X13: the count of every group stays the number of its participant rows over
    any sequence of issuances and redemptions, successful or not, as long as
    the table of participants stays within the range of an int64. *)
Theorem counts_stay_consistent (cs : list Call) (db : Store) :
  countsConsistent db ->
  Z.of_nat (List.length (participants db)) + Z.of_nat (List.length cs) <= maxInt64 ->
  countsConsistent (runCalls db cs).
Proof.
  unfold runCalls. revert db.
  induction cs as [ | c cs IH]; cbn [fold_left List.length]; intros db Hcons Hmax;
    [ exact Hcons | ].
  apply IH.
  - apply runCall_keeps_counts; [ exact Hcons | lia ].
  - pose proof (runCall_participants_grow db c). lia.
Qed.

(** * Further properties of the code generator *)

Lemma codeValues_reachable :
  forallb (fun c => specCode (bytesOfCode c) =? c) codeValues = true.
Proof. vm_compute. reflexivity. Qed.

(** X14: every code from 1000 to 9999 is an output of the generator: the buffer
    holding the code itself, little-endian, yields it. *)
Theorem every_code_is_generated (c : Z) :
  1000 <= c <= 9999 ->
  generateVerificationCode (RandFilled (bytesOfCode c)) = (Sprint c, None).
Proof.
  intros Hc. rewrite generateVerificationCode_filled.
  pose proof codeValues_reachable as Hall.
  rewrite forallb_forall in Hall.
  assert (Hin : In c codeValues).
  { unfold codeValues. apply in_map_iff.
    exists (Z.to_nat (c - 1000)). split; [ lia | ]. apply in_seq. lia. }
  apply Hall, Z.eqb_eq in Hin. rewrite Hin. reflexivity.
Qed.

Lemma Sprint_code_injective (c c' : Z) :
  1000 <= c <= 9999 -> 1000 <= c' <= 9999 -> Sprint c = Sprint c' -> c = c'.
Proof.
  intros Hc Hc' E.
  destruct (fourDigits_elim c _ (Sprint_fourDigits c Hc)) as (_ & _ & Hp).
  destruct (fourDigits_elim c' _ (Sprint_fourDigits c' Hc')) as (_ & _ & Hp').
  rewrite E in Hp. congruence.
Qed.

(** X15: the generator is not uniform.  Two buffers yield the same code exactly
    when their values agree modulo 10000 or one residue is below 1000 and
    the other is 1000 above it: each code from 1000 to 1999 comes from two
    residues and every other code from one. *)
Theorem same_code_iff (b b' : Bytes8) :
  fst (generateVerificationCode (RandFilled b))
  = fst (generateVerificationCode (RandFilled b'))
  <-> (LittleEndian.Uint64 b mod 10000 = LittleEndian.Uint64 b' mod 10000
       \/ (LittleEndian.Uint64 b mod 10000 < 1000
           /\ LittleEndian.Uint64 b' mod 10000 = LittleEndian.Uint64 b mod 10000 + 1000)
       \/ (LittleEndian.Uint64 b' mod 10000 < 1000
           /\ LittleEndian.Uint64 b mod 10000 = LittleEndian.Uint64 b' mod 10000 + 1000)).
Proof.
  rewrite !generateVerificationCode_filled, !Uint64_is_little_endian. cbn [fst].
  pose proof (specCode_range b) as Hb. pose proof (specCode_range b') as Hb'.
  assert (E : Sprint (specCode b) = Sprint (specCode b') <-> specCode b = specCode b').
  { split; [ apply Sprint_code_injective; assumption | congruence ]. }
  rewrite E. clear E Hb Hb'. unfold specCode.
  pose proof (Z.mod_pos_bound (specLittleEndian b) 10000 ltac:(lia)).
  pose proof (Z.mod_pos_bound (specLittleEndian b') 10000 ltac:(lia)).
  destruct (Z.ltb_spec (specLittleEndian b mod 10000) 1000),
           (Z.ltb_spec (specLittleEndian b' mod 10000) 1000); lia.
Qed.

(** * Rows of invitations *)

Section RowsOfInvitations.

Variable formatTime : Time -> string.

(** X16: what the INSERT writes is what the SELECT reads back: a row holding, in
    the order of [groupInvitationColumns], the values that [values] lists for
    an invitation is read by [groupInvitationFromRows] as that invitation,
    with no error; there is one value for each column. *)
Theorem stored_values_read_back (i : GroupInvitation) :
  groupInvitationFromRows formatTime (RowOf (values i)) = (Some i, None)
  /\ List.length (values i) = List.length groupInvitationColumns.
Proof. destruct i. split; reflexivity. Qed.

Lemma assignColumns_errors (index : nat) (dests : list Dest) (vs : list Value)
    (i : GroupInvitation) (e : ScanError) :
  snd (assignColumns formatTime index dests vs i) = Some e ->
  exists k v, e = ErrConvert k v.
Proof.
  revert index vs i.
  induction dests as [ | d dests IH]; intros index vs i; cbn; [ discriminate | ].
  destruct vs as [ | v vs]; cbn; [ discriminate | ].
  destruct (convertAssign formatTime d v i) as [i' | ]; cbn.
  - apply IH.
  - intros H. injection H as <-. eauto.
Qed.

(** X17: the pointer returned is nil exactly when there is no row, and then the
    error is nil too; whenever an error is returned the pointer is not nil,
    so a caller has to test the error first. *)
Theorem nil_invitation_iff_no_row (row : Row) :
  (fst (groupInvitationFromRows formatTime row) = None <-> row = RowMissing)
  /\ (row = RowMissing -> snd (groupInvitationFromRows formatTime row) = None)
  /\ (snd (groupInvitationFromRows formatTime row) <> None ->
      fst (groupInvitationFromRows formatTime row) <> None).
Proof.
  unfold groupInvitationFromRows.
  destruct row as [ | msg | vs].
  - cbn. repeat split; easy.
  - cbn. repeat split; easy.
  - unfold Scan.
    destruct (List.length invitationDests =? List.length vs)%nat.
    2:{ cbn [fst snd]. repeat split; easy. }
    destruct (assignColumns formatTime 0 invitationDests vs zeroGroupInvitation)
      as [i err] eqn:E.
    destruct err as [e | ].
    2:{ cbn [fst snd]. repeat split; easy. }
    destruct (assignColumns_errors 0 invitationDests vs zeroGroupInvitation e)
      as (k & v & ->); [ rewrite E; reflexivity | ].
    cbn [fst snd]. repeat split; easy.
Qed.

(** X18: a row with a NULL column cannot be read, whichever column it is: the
    call returns an error together with a pointer that is not nil.  The
    column [sent_at] is the one that the table lets be NULL. *)
Theorem null_column_is_an_error (vs : list Value) :
  In VNull vs ->
  snd (groupInvitationFromRows formatTime (RowOf vs)) <> None
  /\ fst (groupInvitationFromRows formatTime (RowOf vs)) <> None.
Proof.
  intros Hnull. unfold groupInvitationFromRows, Scan.
  destruct (List.length invitationDests =? List.length vs)%nat eqn:Hlen;
    [ | cbn; split; discriminate ].
  apply Nat.eqb_eq in Hlen.
  destruct vs as [ | v1 [ | v2 [ | v3 [ | v4 [ | v5 [ | v6 [ | v7 vs]]]]]]];
    try discriminate.
  destruct v1, v2, v3, v4, v5, v6; cbn; try (split; discriminate);
    exfalso; cbn in Hnull; intuition discriminate.
Qed.

End RowsOfInvitations.

(** * Category views *)

Section CategoryViews.

Import views.

Lemma setIndex_middle (done rest : list CategoryView) (x v : CategoryView) :
  setIndex (done ++ x :: rest)%list (List.length done) v
  = Some (done ++ v :: rest)%list.
Proof.
  induction done as [ | d done IH]; cbn; [ reflexivity | ].
  rewrite IH. reflexivity.
Qed.

Lemma fillViews_from (done : list CategoryView) (categories : list (option Category)) :
  fillViews (done ++ repeat zeroCategoryView (List.length categories))%list
    (List.length done) categories
  = Some (done ++ map buildCategory categories)%list.
Proof.
  revert done.
  induction categories as [ | c rest IH]; intros done; cbn [fillViews].
  - cbn. reflexivity.
  - cbn [List.length repeat map]. rewrite setIndex_middle.
    replace (done ++ buildCategory c :: repeat zeroCategoryView (List.length rest))%list
      with ((done ++ [buildCategory c])
            ++ repeat zeroCategoryView (List.length rest))%list
      by (rewrite <- app_assoc; reflexivity).
    replace (S (List.length done))
      with (List.length (done ++ [buildCategory c])%list)
      by (rewrite length_app; cbn; lia).
    rewrite IH, <- app_assoc. reflexivity.
Qed.

(** X19: [RenderCategories] never indexes out of range, and responds with one
    view for each category, in order, each built by [buildCategory]; a nil
    category in the list yields the zero view in its place. *)
Theorem RenderCategories_maps (categories : list (option Category)) :
  RenderCategories categories = Some (ManyViews (map buildCategory categories)).
Proof.
  unfold RenderCategories.
  pose proof (fillViews_from [] categories) as H. cbn in H.
  rewrite H. reflexivity.
Qed.

(** X20: the view tells a category from none: it is the zero view exactly for a
    nil category, and its type is ["category"] exactly for a category. *)
Theorem zero_view_iff_nil (category : option Category) :
  (buildCategory category = zeroCategoryView <-> category = None)
  /\ (Type_ (buildCategory category) = "category" <-> category <> None).
Proof.
  destruct category as [c | ]; cbn; repeat split; easy.
Qed.

End CategoryViews.

(** * The request-logging middleware *)

Section Middleware.

Import middleware.

Variable handler : Request -> list Event.
Variables start finish : Time.

(** X21: a body that cannot be read: the client is answered with a bad request,
    the handler is not called (whatever handler is wrapped, the events are
    the same three), and the request is still logged as started and
    completed. *)
Theorem State_unreadable_body (r : Request) (msg : string) :
  body r = Unreadable msg ->
  State handler start finish r
  = [Infof "INFO -- : Started %s '%s'" [ArgString (Method r); ArgString (URL r)];
     RenderBadRequest;
     Infof "INFO -- : Completed %s in %fms"
       [ArgString (Method r); ArgSeconds (finish - start)]]
  /\ forall other, State other start finish r = State handler start finish r.
Proof.
  intros Hbody. unfold State. rewrite Hbody. cbn. split; reflexivity.
Qed.

(** X22: a body that can be read is handed over intact: the handler is called
    once, with the same method and URL, a body that reads as the same bytes
    and those bytes in the context; the log line of the parameters is
    written exactly when the body is not empty; and the request handed over
    is one that a second [State] would hand over unchanged. *)
Theorem State_hands_over_body (r : Request) (data : string) :
  body r = Readable data ->
  let r' := handedOver r data in
  State handler start finish r
  = (Infof "INFO -- : Started %s '%s'" [ArgString (Method r); ArgString (URL r)]
     :: (if (data =? "")%string then []
         else [Infof "INFO -- : Paremeters %s" [ArgString data]])
     ++ CloseBody :: Served r' :: handler r'
     ++ [Infof "INFO -- : Completed %s in %fms"
           [ArgString (Method r); ArgSeconds (finish - start)]])%list
  /\ ReadAll (body r') = (data, None)
  /\ RequestBody r' = Some data
  /\ handedOver r' data = r'.
Proof.
  intros Hbody r'. unfold State. rewrite Hbody. cbn [ReadAll].
  repeat split.
  destruct data as [ | c data]; reflexivity.
Qed.

End Middleware.

(** * White space around a code *)

Section Padding.

Lemma spaceWidth_space (a : ascii) (l : list ascii) :
  asciiSpace (N_of_ascii a) = true -> spaceWidth (a :: l) = 1%nat.
Proof.
  intros H. unfold spaceWidth. cbn [firstn map]. rewrite H. reflexivity.
Qed.

Lemma lastSpaceWidth_space (a : ascii) (l : list ascii) :
  asciiSpace (N_of_ascii a) = true -> lastSpaceWidth (a :: l) = 1%nat.
Proof.
  intros H. unfold lastSpaceWidth. cbn [firstn rev app].
  rewrite (spaceWidth_space a [] H). reflexivity.
Qed.

Lemma spaceWidth_digit (d : ascii) (l : list ascii) :
  isDigit d = true -> spaceWidth (d :: l) = O.
Proof.
  intros H.
  destruct d as [[] [] [] [] [] [] [] []]; try discriminate H; reflexivity.
Qed.

Lemma spaceWidth_two_digit (x d : ascii) :
  isDigit d = true -> spaceWidth [x; d] <> 2%nat.
Proof.
  intros H.
  destruct d as [[] [] [] [] [] [] [] []]; try discriminate H;
  unfold spaceWidth; cbn [firstn map];
  generalize (N_of_ascii x); intros nx; cbn -[asciiSpace];
  (destruct (asciiSpace nx); [ discriminate | ]);
  destruct nx as [ | p]; try discriminate;
  repeat (match goal with
          | |- context [match ?q with xI _ => _ | xO _ => _ | xH => _ end] =>
              destruct q
          end; try discriminate).
Qed.

Lemma spaceWidth_two_digit_3 (x d : ascii) :
  isDigit d = true -> spaceWidth [x; d] <> 3%nat.
Proof.
  intros H.
  destruct d as [[] [] [] [] [] [] [] []]; try discriminate H;
  unfold spaceWidth; cbn [firstn map];
  generalize (N_of_ascii x); intros nx; cbn -[asciiSpace];
  (destruct (asciiSpace nx); [ discriminate | ]);
  destruct nx as [ | p]; try discriminate;
  repeat (match goal with
          | |- context [match ?q with xI _ => _ | xO _ => _ | xH => _ end] =>
              destruct q
          end; try discriminate).
Qed.

Lemma spaceWidth_three_digit (y x d : ascii) :
  isDigit d = true -> spaceWidth [y; x; d] <> 3%nat.
Proof.
  intros H.
  destruct d as [[] [] [] [] [] [] [] []]; try discriminate H;
  unfold spaceWidth; cbn [firstn map];
  generalize (N_of_ascii y) (N_of_ascii x); intros ny nx; cbn -[asciiSpace];
  (destruct (asciiSpace ny); [ discriminate | ]);
  destruct ny as [ | p]; try discriminate;
  repeat (match goal with
          | |- context [match ?q with xI _ => _ | xO _ => _ | xH => _ end] =>
              destruct q
          | |- context [match ?q with N0 => _ | Npos _ => _ end] => destruct q
          | |- context [if ?c then _ else _] => destruct c
          end; try discriminate).
Qed.

(** A digit is the end of no white-space code point. *)
Lemma lastSpaceWidth_digit (d : ascii) (l : list ascii) :
  isDigit d = true -> lastSpaceWidth (d :: l) = O.
Proof.
  intros H. unfold lastSpaceWidth.
  cbn [firstn rev app]. rewrite (spaceWidth_digit d [] H). cbn [Nat.eqb].
  destruct l as [ | x l].
  - cbn [firstn rev app]. rewrite (spaceWidth_digit d [] H). reflexivity.
  - cbn [firstn rev app].
    destruct (Nat.eqb_spec (spaceWidth [x; d]) 2) as [E | _];
      [ exfalso; exact (spaceWidth_two_digit x d H E) | ].
    destruct l as [ | y l]; cbn [firstn rev app].
    + destruct (Nat.eqb_spec (spaceWidth [x; d]) 3) as [E | _];
        [ exfalso; exact (spaceWidth_two_digit_3 x d H E) | reflexivity ].
    + destruct (Nat.eqb_spec (spaceWidth [y; x; d]) 3) as [E | _];
        [ exfalso; exact (spaceWidth_three_digit y x d H E) | reflexivity ].
Qed.

Variable width : list ascii -> nat.
Hypothesis width_space :
  forall a l, asciiSpace (N_of_ascii a) = true -> width (a :: l) = 1%nat.

Lemma drop_spaces (pre rest : list ascii) (fuel : nat) :
  forallb (fun a => asciiSpace (N_of_ascii a)) pre = true ->
  (List.length pre <= fuel)%nat ->
  dropWhileSpace width fuel (pre ++ rest)
  = dropWhileSpace width (fuel - List.length pre) rest.
Proof.
  revert fuel. induction pre as [ | a pre IH]; intros fuel Hsp Hfuel.
  - cbn. rewrite Nat.sub_0_r. reflexivity.
  - cbn in Hsp. apply andb_true_iff in Hsp. destruct Hsp as [Ha Hpre].
    destruct fuel as [ | fuel]; [ cbn in Hfuel; lia | ].
    cbn [dropWhileSpace app]. rewrite (width_space a _ Ha).
    cbn [skipn List.length Nat.sub]. apply IH; [ exact Hpre | cbn in Hfuel; lia ].
Qed.

Lemma drop_stops (bs : list ascii) (fuel : nat) :
  width bs = O -> dropWhileSpace width fuel bs = bs.
Proof.
  intros H. destruct fuel; cbn; [ | rewrite H ]; reflexivity.
Qed.

End Padding.

Section PaddedCodes.

Lemma list_ascii_of_string_app (s t : string) :
  list_ascii_of_string (s ++ t)
  = (list_ascii_of_string s ++ list_ascii_of_string t)%list.
Proof.
  induction s as [ | c s IH]; cbn; [ reflexivity | rewrite IH; reflexivity ].
Qed.

Lemma isNumeric_forallb (s : string) :
  isNumeric s = forallb isDigit (list_ascii_of_string s).
Proof.
  induction s as [ | c s IH]; cbn; [ reflexivity | rewrite IH; reflexivity ].
Qed.

Lemma forallb_rev {A : Type} (f : A -> bool) (l : list A) :
  forallb f l = true -> forallb f (rev l) = true.
Proof.
  rewrite !forallb_forall. intros H a Ha. apply H, in_rev, Ha.
Qed.

Lemma last_digit (digits : list ascii) (d : ascii) (rest : list ascii) :
  forallb isDigit digits = true -> rev digits = d :: rest -> isDigit d = true.
Proof.
  intros H E. apply forallb_rev in H. rewrite E in H. cbn in H.
  apply andb_true_iff in H. tauto.
Qed.

(** Trimming a numeric code padded with ASCII white space gives the code. *)
Lemma TrimSpace_padded_code (pre code post : string) :
  asciiSpaces pre = true -> asciiSpaces post = true -> isNumeric code = true ->
  TrimSpace (pre ++ code ++ post) = code.
Proof.
  unfold asciiSpaces. rewrite isNumeric_forallb. intros Hpre Hpost Hcode.
  rewrite <- (string_of_list_ascii_of_string code) at 2.
  unfold TrimSpace. f_equal.
  rewrite !list_ascii_of_string_app.
  set (P := list_ascii_of_string pre) in *.
  set (C := list_ascii_of_string code) in *.
  set (Q := list_ascii_of_string post) in *.
  destruct C as [ | d C'] eqn:EC.
  - assert (Hall : forallb (fun a => asciiSpace (N_of_ascii a)) (P ++ Q) = true).
    { rewrite forallb_app, Hpre, Hpost. reflexivity. }
    cbn [app]. unfold TrimLeftSpace.
    rewrite <- (app_nil_r (P ++ Q)) at 2.
    rewrite (drop_spaces spaceWidth spaceWidth_space (P ++ Q) [] _ Hall)
      by (apply Nat.le_refl).
    rewrite (drop_stops spaceWidth) by reflexivity.
    reflexivity.
  - cbn in Hcode. apply andb_true_iff in Hcode. destruct Hcode as [Hd HC'].
    assert (Hleft : TrimLeftSpace (P ++ (d :: C') ++ Q) = ((d :: C') ++ Q)%list).
    { unfold TrimLeftSpace.
      rewrite (drop_spaces spaceWidth spaceWidth_space P _ _ Hpre)
        by (rewrite length_app; lia).
      apply drop_stops. cbn [app]. apply spaceWidth_digit. exact Hd. }
    rewrite Hleft. unfold TrimRightSpace.
    rewrite rev_app_distr.
    rewrite (drop_spaces lastSpaceWidth lastSpaceWidth_space (rev Q) _ _
               (forallb_rev _ _ Hpost))
      by (rewrite length_rev, length_app; lia).
    destruct (rev (d :: C')) as [ | d' rest] eqn:Erev.
    { apply (f_equal (@List.length ascii)) in Erev.
      rewrite length_rev in Erev. discriminate. }
    assert (Hd' : isDigit d' = true).
    { apply (last_digit (d :: C') d' rest); [ | exact Erev ].
      cbn. rewrite Hd, HC'. reflexivity. }
    rewrite (drop_stops lastSpaceWidth) by (apply lastSpaceWidth_digit; exact Hd').
    rewrite <- Erev. apply rev_involutive.
Qed.

Lemma join_reads_the_trimmed_code (w : World) (db : Store) (user : User)
    (groupID code code' : string) :
  TrimSpace code = TrimSpace code' ->
  JoinGroupByInvitation w db user groupID code
  = JoinGroupByInvitation w db user groupID code'.
Proof.
  intros E. unfold JoinGroupByInvitation, joinGroupByInvitationTx.
  rewrite E. reflexivity.
Qed.

(** X10: ASCII white space around a numeric code is ignored by the redemption:
    the call with the padded code returns what the call with the bare code
    returns and leaves the same store. *)
Theorem padded_code_redeems_alike (w : World) (db : Store) (user : User)
    (groupID pre code post : string) :
  asciiSpaces pre = true -> asciiSpaces post = true -> isNumeric code = true ->
  TrimSpace (pre ++ code ++ post) = code
  /\ JoinGroupByInvitation w db user groupID (pre ++ code ++ post)
     = JoinGroupByInvitation w db user groupID code.
Proof.
  intros Hpre Hpost Hcode.
  pose proof (TrimSpace_padded_code pre code post Hpre Hpost Hcode) as E.
  split; [ exact E | ].
  apply join_reads_the_trimmed_code. rewrite E.
  pose proof (TrimSpace_padded_code "" code "" eq_refl eq_refl Hcode) as E0.
  cbn [append] in E0.
  assert (Hnil : (code ++ "")%string = code).
  { clear. induction code as [ | c s IH]; cbn; [ | rewrite IH ]; reflexivity. }
  rewrite Hnil in E0. symmetry. exact E0.
Qed.

End PaddedCodes.

(** * The further properties at concrete inputs *)

Lemma issuance_random_failure_witness :
  CreateGroupInvitation
    (mkWorld "i9" 2 (RandFailed (PlainError "EOF")) noFaults)
    Sample.seven Sample.owner "g" "new@example.com"
  = ((None, Some (ServerError (PlainError "EOF"))), Sample.seven).
Proof.
  apply (issuance_random_failure _ Sample.seven Sample.owner "g" "new@example.com"
           (mkGroup "g" "u1" 0 "" None)).
  - reflexivity.
  - vm_compute. discriminate.
  - reflexivity.
  - reflexivity.
  - reflexivity.
  - reflexivity.
Defined.


Lemma issuance_succeeds_witness :
  lookupInvitation
    (storeAfter (CreateGroupInvitation Sample.world Sample.empty Sample.owner
                   "g" "a@example.com")) "g" "a@example.com"
  = Some (mkGroupInvitation "i9" "g" "a@example.com" "2345" zeroTime 2).
Proof.
  apply (issuance_succeeds Sample.world Sample.empty Sample.owner "g" "a@example.com"
           (mkGroup "g" "u1" 0 "" None)) with (b := Sample.bytes).
  - reflexivity.
  - vm_compute. discriminate.
  - reflexivity.
  - reflexivity.
  - reflexivity.
  - reflexivity.
  - reflexivity.
  - reflexivity.
  - reflexivity.
Defined.

Lemma issue_then_redeem_witness :
  group_invitations
    (storeAfter
       (JoinGroupByInvitation Sample.world
          (storeAfter (CreateGroupInvitation Sample.world Sample.empty Sample.owner
                         "g" "a@example.com"))
          Sample.guest "g" " 2345 "))
  = group_invitations Sample.empty.
Proof.
  destruct (issue_then_redeem Sample.world Sample.world Sample.empty Sample.owner
              Sample.guest "g" " 2345 " (mkGroup "g" "u1" 0 "" None) Sample.bytes)
    as (E1 & E2 & E3 & _).
  - reflexivity.
  - vm_compute. discriminate.
  - reflexivity.
  - reflexivity.
  - reflexivity.
  - reflexivity.
  - reflexivity.
  - reflexivity.
  - reflexivity.
  - reflexivity.
  - reflexivity.
  - change (String_ (Email Sample.guest)) with "a@example.com" in *.
    rewrite E1, E2. exact E3.
Defined.

Lemma issuance_failures_witness :
  issuanceError Sample.world ForbiddenError
  /\ returned (CreateGroupInvitation Sample.world Sample.seven Sample.guest
                 "g" "c@example.com") = None
  /\ storeAfter (CreateGroupInvitation Sample.world Sample.seven Sample.guest
                   "g" "c@example.com") = Sample.seven.
Proof.
  apply issuance_failures. reflexivity.
Defined.

Lemma redemption_failures_witness :
  redemptionError (TransactionError (PlainError "connection reset"))
  /\ returned (JoinGroupByInvitation Sample.faulty Sample.invited Sample.guest
                 "g" "4821") = None
  /\ storeAfter (JoinGroupByInvitation Sample.faulty Sample.invited Sample.guest
                   "g" "4821") = Sample.invited.
Proof.
  apply redemption_failures. reflexivity.
Defined.

Lemma redemption_consumes_invitation_witness :
  lookupInvitation
    (storeAfter (JoinGroupByInvitation Sample.world Sample.invited Sample.guest
                   "g" "4821")) "g" "a@example.com" = None
  /\ invitationCount
       (storeAfter (JoinGroupByInvitation Sample.world Sample.invited Sample.guest
                      "g" "4821")) "g"
     = invitationCount Sample.invited "g" - 1.
Proof.
  destruct (redemption_consumes_invitation "g" Sample.world Sample.invited
              Sample.guest "4821" (mkGroup "g" "u1" 1 "VIP" (Some Sample.owner))
              (storeAfter (JoinGroupByInvitation Sample.world Sample.invited
                             Sample.guest "g" "4821")))
    as (H1 & H2 & _).
  - split; cbn; (constructor; [ intros [] | constructor ]).
  - split; [ discriminate | reflexivity ].
  - split; assumption.
Defined.

Lemma constraints_are_kept_witness :
  keysUnique
    (runCalls Sample.invited
       [Redeem Sample.world Sample.guest "g" "4821";
        Issue Sample.world Sample.owner "g" "c@example.com";
        Issue Sample.world Sample.owner "g" "c@example.com"])
  /\ invitationsReferGroups
       (runCalls Sample.invited
          [Redeem Sample.world Sample.guest "g" "4821";
           Issue Sample.world Sample.owner "g" "c@example.com";
           Issue Sample.world Sample.owner "g" "c@example.com"]).
Proof.
  apply constraints_are_kept.
  - split; cbn; (constructor; [ intros [] | constructor ]).
  - intros i [<- | []]. reflexivity.
Defined.

Lemma never_more_than_eight_invitations_witness :
  invitationCount
    (runCalls Sample.seven
       [Issue Sample.world Sample.owner "g" "c@example.com";
        Issue (mkWorld "i10" 3 (RandFilled Sample.bytes) noFaults)
          Sample.owner "g" "d@example.com";
        Issue (mkWorld "i11" 4 (RandFilled Sample.bytes) noFaults)
          Sample.owner "g" "e@example.com"]) "g" <= 8.
Proof.
  apply never_more_than_eight_invitations.
  intros g. unfold invitationCount. cbn -[String.eqb].
  destruct ("g" =? g)%string; cbn; lia.
Defined.

Lemma counts_stay_consistent_witness :
  countsConsistent
    (runCalls Sample.invited
       [Redeem Sample.world Sample.guest "g" "4821";
        Redeem Sample.world Sample.guest "g" "4821"]).
Proof.
  apply counts_stay_consistent.
  - intros g k H. unfold storedUsersCount in H. cbn -[String.eqb] in H.
    destruct ("g" =? g)%string; cbn in H; [ | discriminate ].
    injection H as <-. reflexivity.
  - vm_compute. discriminate.
Defined.

Lemma every_code_is_generated_witness :
  generateVerificationCode (RandFilled (bytesOfCode 1000)) = ("1000", None)
  /\ generateVerificationCode (RandFilled (bytesOfCode 9999)) = ("9999", None).
Proof.
  split.
  - apply (every_code_is_generated 1000). lia.
  - apply (every_code_is_generated 9999). lia.
Defined.

Lemma null_column_is_an_error_witness :
  snd (groupInvitationFromRows (fun _ => "")
         (RowOf [VText "i1"; VText "g"; VText "a@example.com"; VText "4821";
                 VNull; VTimestamp 1])) <> None
  /\ fst (groupInvitationFromRows (fun _ => "")
            (RowOf [VText "i1"; VText "g"; VText "a@example.com"; VText "4821";
                    VNull; VTimestamp 1])) <> None.
Proof.
  apply null_column_is_an_error. cbn. tauto.
Defined.

Lemma State_unreadable_body_witness :
  middleware.State (fun _ => [middleware.CloseBody]) 10 12
    (middleware.mkRequest "POST" "/groups" (middleware.Unreadable "timeout") None)
  = middleware.State (fun _ => []) 10 12
      (middleware.mkRequest "POST" "/groups" (middleware.Unreadable "timeout") None).
Proof.
  apply (proj2 (State_unreadable_body (fun _ => []) 10 12
                  (middleware.mkRequest "POST" "/groups"
                     (middleware.Unreadable "timeout") None)
                  "timeout" eq_refl)).
Defined.

Lemma State_hands_over_body_witness :
  middleware.ReadAll
    (middleware.body
       (middleware.handedOver
          (middleware.mkRequest "POST" "/groups" (middleware.Readable "{}") None)
          "{}"))
  = ("{}", None).
Proof.
  apply (State_hands_over_body (fun _ => []) 10 12
           (middleware.mkRequest "POST" "/groups" (middleware.Readable "{}") None)
           "{}" eq_refl).
Defined.

Lemma padded_code_redeems_alike_witness :
  JoinGroupByInvitation Sample.world Sample.invited Sample.guest "g"
    (" " ++ "4821" ++ " ")
  = JoinGroupByInvitation Sample.world Sample.invited Sample.guest "g" "4821".
Proof.
  apply padded_code_redeems_alike; reflexivity.
Defined.
